(** * Adaptive Loan Payment Scheduler: scoring function and scheduler

    A shallow embedding of [loanscheduler.cpp].

    Numeric conventions of the embedding:
    - a C++ [double] is a real number ([R]); [log1p x] is [ln (1 + x)];
    - a C++ [int] value is an integer ([Z]); the one [int] subtraction of
      the program, in [simulateDays], is [int_sub]: the exact difference
      when that is an [int] value, and its 32-bit two's-complement wrap
      when it is not (signed overflow is undefined in C++; this is what the
      usual compilers produce);
    - [std::priority_queue] is an interface ([PriorityQueue]) whose laws say
      what the C++ standard promises: [top] is an element of maximal score,
      [pop] removes it; the order among equal scores is left open;
    - text written to [cout] is a list of [Event]s. *)

From Stdlib Require Import Reals Lra Lia ZArith List String Ascii Bool.
From Stdlib Require Import Permutation Sorted.
Import ListNotations.

Local Open Scope R_scope.

(** ** Loan *)

Record Loan : Type := mkLoan {
  id : Z;
  name : string;
  principal : R;             (* current outstanding *)
  annualRate : R;            (* % *)
  daysUntilDue : Z;          (* days left to EMI due *)
  lateFee : R;               (* flat late fee *)
  creditFactor : R;          (* 0-1 impact on credit *)
  variableRate : bool;
  inflationSensitivity : R   (* 0-1 multiplier for variable rate loans *)
}.

(** The constructor [Loan::Loan]: its last three parameters have defaults
    ([creditFactor = 0.0], [variableRate = false],
    [inflationSensitivity = 0.0]); an omitted argument is [None]. *)
Definition Loan_ctor (id : Z) (name : string) (principal rate : R) (days : Z)
    (lateFee : R) (creditFactor : option R) (variableRate : option bool)
    (inflationSensitivity : option R) : Loan :=
  mkLoan id name principal rate days lateFee
         (match creditFactor with Some c => c | None => 0 end)
         (match variableRate with Some b => b | None => false end)
         (match inflationSensitivity with Some s => s | None => 0 end).

(** Field updates ([loan.principal = ...], [L.daysUntilDue -= ...]) and the
    "all else fixed" variations of a loan. *)
Definition set_principal (L : Loan) (p : R) : Loan :=
  mkLoan (id L) (name L) p (annualRate L) (daysUntilDue L) (lateFee L)
         (creditFactor L) (variableRate L) (inflationSensitivity L).

Definition set_daysUntilDue (L : Loan) (d : Z) : Loan :=
  mkLoan (id L) (name L) (principal L) (annualRate L) d (lateFee L)
         (creditFactor L) (variableRate L) (inflationSensitivity L).

Definition set_annualRate (L : Loan) (r : R) : Loan :=
  mkLoan (id L) (name L) (principal L) r (daysUntilDue L) (lateFee L)
         (creditFactor L) (variableRate L) (inflationSensitivity L).

Definition set_lateFee (L : Loan) (f : R) : Loan :=
  mkLoan (id L) (name L) (principal L) (annualRate L) (daysUntilDue L) f
         (creditFactor L) (variableRate L) (inflationSensitivity L).

(** ** Machine integers *)

Definition INT_MIN : Z := -2147483648.
Definition INT_MAX : Z := 2147483647.

(** The values an [int] holds. *)
Definition int_range (z : Z) : Prop := (INT_MIN <= z <= INT_MAX)%Z.

(** An integer brought back into the 32 bits of an [int]. *)
Definition int_wrap (z : Z) : Z :=
  ((z + 2147483648) mod 4294967296 - 2147483648)%Z.

(** [a - b] on [int]. *)
Definition int_sub (a b : Z) : Z := int_wrap (a - b).

(** ** Helper functions *)

Definition clamp (v lo hi : R) : R := Rmax lo (Rmin v hi).

Definition log1p (x : R) : R := ln (1 + x).

(** Urgency score: closer due date = higher urgency. *)
Definition computeUrgency (days : Z) : R :=
  if (days <=? 0)%Z then 1                (* overdue = maximum urgency *)
  else 1 / (1 + log1p (IZR days)).        (* smooth decay *)

(** The inflation term of [computePriority] (its local [inflationAdj]). *)
Definition inflationAdj (L : Loan) (inflationRate : R) : R :=
  if variableRate L
  then - inflationRate * inflationSensitivity L * (principal L / 1000)
  else 0.

Definition computePriority (L : Loan) (inflationRate : R) : R :=
  if Rle_dec (principal L) 1e-6 then -1e15   (* paid off loans drop to bottom *)
  else
    let urgency := computeUrgency (daysUntilDue L) in
    let interestImpact := (annualRate L / 100) * (principal L / 1000) in
    (* normalized penalty term *)
    let perRupeePenalty := lateFee L / Rmax 1 (principal L) in
    let perRupeePenalty := clamp perRupeePenalty 0 5e3 in
    let penaltyWeight := perRupeePenalty * 10000 * urgency in
    let creditImpact := creditFactor L * 100 in
    let inflationAdj := inflationAdj L inflationRate in
    (* weighted priority components *)
    let priority := (interestImpact * 1.5)
                  + (penaltyWeight * 0.8)
                  + (creditImpact * 0.8)
                  + (urgency * 5000)
                  + inflationAdj in
    if (daysUntilDue L <=? 5)%Z
    then priority * 1.25                      (* short-term boost *)
    else priority.

(** ** The ranking structure

    [std::priority_queue<pair<double, Loan>, vector<...>, Compare>] with
    [Compare] ordering by the score ([first]): a max-heap on the score.
    The container is library code; the scheduler is written against this
    interface.  [pq_items] is the content of the underlying vector. *)

Definition Entry : Type := (R * Loan)%type.

Class PriorityQueue : Type := {
  pq_t : Type;
  pq_new : pq_t;
  pq_empty : pq_t -> bool;
  pq_size : pq_t -> nat;
  pq_push : Entry -> pq_t -> pq_t;
  pq_top : pq_t -> option Entry;
  pq_pop : pq_t -> pq_t;
  pq_items : pq_t -> list Entry
}.

(** What the C++ standard promises of the container. *)
Record PriorityQueueLaws (Q : PriorityQueue) : Prop := {
  pq_items_new : pq_items pq_new = [];
  pq_empty_spec : forall q, pq_empty q = true <-> pq_items q = [];
  pq_size_spec : forall q, pq_size q = List.length (pq_items q);
  pq_items_push : forall x q,
      Permutation (pq_items (pq_push x q)) (x :: pq_items q);
  pq_top_none : forall q, pq_items q = [] -> pq_top q = None;
  pq_top_pop : forall q, pq_items q <> [] ->
      exists x, pq_top q = Some x
             /\ Forall (fun y => fst y <= fst x) (pq_items q)
             /\ Permutation (pq_items q) (x :: pq_items (pq_pop q))
}.

(** A reference queue: the entries in a list, [top] the first entry of
    maximal score. *)
Fixpoint list_top (l : list Entry) : option Entry :=
  match l with
  | [] => None
  | x :: r =>
      match list_top r with
      | None => Some x
      | Some y => if Rlt_dec (fst x) (fst y) then Some y else Some x
      end
  end.

Fixpoint list_pop (l : list Entry) : list Entry :=
  match l with
  | [] => []
  | x :: r =>
      match list_top r with
      | None => r
      | Some y => if Rlt_dec (fst x) (fst y) then x :: list_pop r else r
      end
  end.

Definition ListPQ : PriorityQueue := {|
  pq_t := list Entry;
  pq_new := [];
  pq_empty := fun q => match q with [] => true | _ => false end;
  pq_size := @List.length Entry;
  pq_push := fun x q => q ++ [x];
  pq_top := list_top;
  pq_pop := list_pop;
  pq_items := fun q => q
|}.

(** ** Output *)

Inductive Event : Type :=
| NoLoansToDisplay                       (* "No loans to display." *)
| PrioritiesHeader                       (* banner and column titles *)
| PriorityRow (nm : string) (score princ : R) (days : Z)
| AllLoansRepaid                         (* "All loans repaid or inactive." *)
| NoLoansForRepayment                    (* "No loans available for repayment." *)
| InvalidPaymentAmount                   (* "Invalid payment amount." *)
| AllocatingPayment (amount : R)
| Paid (pay : R) (nm : string) (remaining : R)
| LeftoverCash (amount : R)
| NoDaysSimulated                        (* "No days simulated." *)
| SimulatedDays (days : Z).

(** ** AdaptiveScheduler *)

Section Scheduler.

Context {Q : PriorityQueue}.

Record Scheduler : Type := mkScheduler {
  loans : list Loan;
  inflationRate : R;
  pq : pq_t
}.

(** [AdaptiveScheduler(double inflationRate = 0.05)]. *)
Definition newScheduler (rate : option R) : Scheduler :=
  mkScheduler [] (match rate with Some r => r | None => 0.05 end) pq_new.

(** [while (!pq.empty()) pq.pop();] one [pop] per stored entry. *)
Fixpoint clearLoop (fuel : nat) (q : pq_t) : pq_t :=
  match fuel with
  | O => q
  | S f => if pq_empty q then q else clearLoop f (pq_pop q)
  end.

Definition clearHeap (q : pq_t) : pq_t := clearLoop (pq_size q) q.

Definition rebuildHeap (s : Scheduler) : Scheduler :=
  mkScheduler (loans s) (inflationRate s)
    (fold_left (fun q L => pq_push (computePriority L (inflationRate s), L) q)
               (loans s) (clearHeap (pq s))).

Definition addLoan (s : Scheduler) (L : Loan) : Scheduler :=
  mkScheduler (loans s ++ [L]) (inflationRate s) (pq s).

(** The loop of [displayPriorities] over the copy [temp]; it returns
    [anyShown] and the rows written. *)
Fixpoint displayLoop (fuel : nat) (temp : pq_t) (anyShown : bool)
  : bool * list Event :=
  match fuel with
  | O => (anyShown, [])
  | S f =>
      if pq_empty temp then (anyShown, [])
      else
        match pq_top temp with
        | None => (anyShown, [])
        | Some (score, L) =>
            let temp := pq_pop temp in
            if Rle_dec (principal L) 1e-6 then displayLoop f temp anyShown
            else
              let '(shown, out) := displayLoop f temp true in
              (shown, PriorityRow (name L) score (principal L) (daysUntilDue L)
                        :: out)
        end
  end.

Definition displayPriorities (s : Scheduler) : Scheduler * list Event :=
  match loans s with
  | [] => (s, [NoLoansToDisplay])
  | _ :: _ =>
      let s := rebuildHeap s in
      let '(anyShown, rows) := displayLoop (pq_size (pq s)) (pq s) false in
      (s, PrioritiesHeader :: rows
            ++ (if anyShown then [] else [AllLoansRepaid]))
  end.

(** "Update in master list": the first loan with the id gets the value. *)
Fixpoint updateMaster (ls : list Loan) (lid : Z) (p : R) : list Loan :=
  match ls with
  | [] => []
  | loan :: rest =>
      if (id loan =? lid)%Z then set_principal loan p :: rest
      else loan :: updateMaster rest lid p
  end.

(** State of the [while] loop of [allocatePayment]: the scheduler, the local
    [amount] and the payments written so far (oldest first). *)
Record AllocState : Type := mkAllocState {
  al_sched : Scheduler;
  al_amount : R;
  al_trace : list Event
}.

(** [amount > 0.0 && !pq.empty()] *)
Definition allocCond (st : AllocState) : bool :=
  if Rlt_dec 0 (al_amount st) then negb (pq_empty (pq (al_sched st)))
  else false.

Definition allocBody (st : AllocState) : AllocState :=
  let s := al_sched st in
  match pq_top (pq s) with
  | None => st
  | Some (score, L) =>
      let q := pq_pop (pq s) in
      let pay := Rmin (al_amount st) (principal L) in
      let amount := al_amount st - pay in
      let L := set_principal L (principal L - pay) in
      let ls := updateMaster (loans s) (id L) (principal L) in
      mkAllocState (rebuildHeap (mkScheduler ls (inflationRate s) q))
                   amount
                   (al_trace st ++ [Paid pay (name L) (principal L)])
  end.

(** The state after [n] turns of the loop (it stays where the condition
    fails). *)
Fixpoint allocIter (n : nat) (st : AllocState) : AllocState :=
  match n with
  | O => st
  | S k => if allocCond st then allocIter k (allocBody st) else st
  end.

(** The loop itself: [None] when [fuel] turns were not enough to leave it. *)
Fixpoint allocLoop (fuel : nat) (st : AllocState) : option AllocState :=
  if allocCond st then
    match fuel with
    | O => None
    | S f => allocLoop f (allocBody st)
    end
  else Some st.

Definition allocatePayment (fuel : nat) (s : Scheduler) (amount : R)
  : option (Scheduler * list Event) :=
  match loans s with
  | [] => Some (s, [NoLoansForRepayment])
  | _ :: _ =>
      if Rle_dec amount 0 then Some (s, [InvalidPaymentAmount])
      else
        match allocLoop fuel (mkAllocState (rebuildHeap s) amount []) with
        | None => None
        | Some st =>
            let '(s', shown) := displayPriorities (al_sched st) in
            Some (s', AllocatingPayment amount :: al_trace st
                        ++ (if Rlt_dec 0 (al_amount st)
                            then [LeftoverCash (al_amount st)] else [])
                        ++ shown)
        end
  end.

Definition simulateDays (s : Scheduler) (days : Z) : Scheduler * list Event :=
  if (days =? 0)%Z then (s, [NoDaysSimulated])
  else
    let ls := map (fun L => set_daysUntilDue L (int_sub (daysUntilDue L) days))
                  (loans s) in
    let s := rebuildHeap (mkScheduler ls (inflationRate s) (pq s)) in
    let '(s, shown) := displayPriorities s in
    (s, SimulatedDays days :: shown).

End Scheduler.

(** ** The interactive shell ([main])

    One turn of the menu loop per [Command]; the values are those read from
    [cin].  Choice 1 builds the loan with eight constructor arguments: the
    ninth, [inflationSensitivity], is never read and takes its default. *)

Inductive Command : Type :=
| CmdAddLoan (nm : string) (princ rate : R) (days : Z) (fee credit : R)
             (varRate : ascii)                          (* choice 1 *)
| CmdView                                               (* choice 2 *)
| CmdAllocate (amt : R)                                 (* choice 3 *)
| CmdSimulate (days : Z)                                (* choice 4 *)
| CmdOther (choice : Z).                                (* anything but 1..5 *)
(* Choice 5 leaves the loop; it is the end of the session, not a turn. *)

Definition isYes (varRate : ascii) : bool :=
  (Ascii.eqb varRate "y" || Ascii.eqb varRate "Y")%bool.

Definition shellLoan (next : Z) (nm : string) (princ rate : R) (days : Z)
    (fee credit : R) (varRate : ascii) : Loan :=
  Loan_ctor next nm princ rate days fee (Some credit) (Some (isYes varRate))
            None.

Section Shell.

Context {Q : PriorityQueue}.

(** The locals of [main] that outlive a turn: [scheduler] and [id]. *)
Record Shell : Type := mkShell {
  sh_scheduler : Scheduler;
  sh_id : Z
}.

(** [AdaptiveScheduler scheduler(0.05); int choice, id = 1;] *)
Definition shellStart : Shell := mkShell (newScheduler (Some 0.05)) 1.

Definition shellStep (fuel : nat) (sh : Shell) (c : Command) : option Shell :=
  match c with
  | CmdAddLoan nm princ rate days fee credit varRate =>
      Some (mkShell
              (addLoan (sh_scheduler sh)
                 (shellLoan (sh_id sh) nm princ rate days fee credit varRate))
              (sh_id sh + 1)%Z)
  | CmdView =>
      Some (mkShell (fst (displayPriorities (sh_scheduler sh))) (sh_id sh))
  | CmdAllocate amt =>
      match allocatePayment fuel (sh_scheduler sh) amt with
      | None => None
      | Some (s, _) => Some (mkShell s (sh_id sh))
      end
  | CmdSimulate days =>
      Some (mkShell (fst (simulateDays (sh_scheduler sh) days)) (sh_id sh))
  | CmdOther _ => Some sh
  end.

(** The states the session can be in between two turns of the menu. *)
Inductive ShellReach : Shell -> Prop :=
| reach_start : ShellReach shellStart
| reach_step : forall fuel sh c sh',
    ShellReach sh -> shellStep fuel sh c = Some sh' -> ShellReach sh'.

End Shell.

(** ** The scoring formula as section 4.1 of the specification words it *)

Module Spec.

Definition urgency (daysUntilDue : Z) : R :=
  if (0 <? daysUntilDue)%Z then 1 / (1 + ln (1 + IZR daysUntilDue)) else 1.

Definition interestImpact (L : Loan) : R :=
  (annualRate L / 100) * (principal L / 1000).

(** "clamped into [0, 5000]" *)
Definition clampInto (lo hi v : R) : R :=
  if Rlt_dec v lo then lo else if Rlt_dec hi v then hi else v.

Definition penaltyRatio (L : Loan) : R :=
  clampInto 0 5000 (lateFee L / Rmax 1 (principal L)).

Definition penaltyWeight (L : Loan) : R :=
  penaltyRatio L * 10000 * urgency (daysUntilDue L).

Definition creditImpact (L : Loan) : R := creditFactor L * 100.

Definition inflationAdjustment (L : Loan) (inflationRate : R) : R :=
  if variableRate L
  then - inflationRate * inflationSensitivity L * (principal L / 1000)
  else 0.

Definition weightedSum (L : Loan) (inflationRate : R) : R :=
  1.5 * interestImpact L + 0.8 * penaltyWeight L + 0.8 * creditImpact L
  + 5000 * urgency (daysUntilDue L) + inflationAdjustment L inflationRate.

Definition priority (L : Loan) (inflationRate : R) : R :=
  if (daysUntilDue L <=? 5)%Z
  then 1.25 * weightedSum L inflationRate
  else weightedSum L inflationRate.

End Spec.

(** ** Helpers used to state the properties *)

(** The amounts of the per-loan payment lines of an output. *)
Fixpoint paidTotal (out : list Event) : R :=
  match out with
  | [] => 0
  | Paid pay _ _ :: rest => pay + paidTotal rest
  | _ :: rest => paidTotal rest
  end.

(** The leftover an output reports (0 when it reports none). *)
Fixpoint leftoverOf (out : list Event) : R :=
  match out with
  | [] => 0
  | LeftoverCash a :: rest => a + leftoverOf rest
  | _ :: rest => leftoverOf rest
  end.

(** The line [displayPriorities] writes for a loan. *)
Definition rowOf (score : R) (L : Loan) : Event :=
  PriorityRow (name L) score (principal L) (daysUntilDue L).

(** What is still owed over the whole collection. *)
Fixpoint totalPrincipal (ls : list Loan) : R :=
  match ls with
  | [] => 0
  | L :: rest => principal L + totalPrincipal rest
  end.

(** [L'] is [L] but for [daysUntilDue]. *)
Definition sameButDays (L L' : Loan) : Prop :=
  id L' = id L /\ name L' = name L /\ principal L' = principal L
  /\ annualRate L' = annualRate L /\ lateFee L' = lateFee L
  /\ creditFactor L' = creditFactor L /\ variableRate L' = variableRate L
  /\ inflationSensitivity L' = inflationSensitivity L.

(** Sample loans: 100 owed, and nothing owed. *)
Definition loanCar : Loan := Loan_ctor 1 "Car" 100 10 30 50 None None None.
Definition loanPaid : Loan := Loan_ctor 3 "Bike" 0 10 30 50 None None None.

(** Loans A and B of the specification's scenarios. *)
Definition loanA : Loan :=
  Loan_ctor 1 "A" 10000 12 3 500 (Some 0.5) (Some false) None.

Definition loanB : Loan :=
  Loan_ctor 2 "B" 5000 8 60 100 (Some 0.2) (Some false) None.

(** Sample sessions over the reference queue. *)
Definition sessionAB : @Scheduler ListPQ :=
  addLoan (addLoan (newScheduler None) loanA) loanB.

Definition sessionPaid : @Scheduler ListPQ :=
  addLoan (newScheduler None) loanPaid.

Definition sessionMixed : @Scheduler ListPQ :=
  addLoan (addLoan (newScheduler None) loanA) loanPaid.

Definition shellOneLoan : @Shell ListPQ :=
  mkShell (addLoan (newScheduler (Some 0.05))
                   (shellLoan 1 "Home" 250000 9 20 1500 0.7 "y"))
          2.

(** The entry [rebuildHeap] pushes for a loan. *)
Definition entryOf (inflationRate : R) (L : Loan) : Entry :=
  (computePriority L inflationRate, L).

(** ** Invariants of the allocation loop *)

(** An output line that carries no cash: neither a payment nor a leftover. *)
Definition cashless (e : Event) : Prop :=
  match e with
  | Paid _ _ _ | LeftoverCash _ => False
  | _ => True
  end.

(** No loan reacts to inflation. *)
Definition Insensitive (ls : list Loan) : Prop :=
  Forall (fun L => inflationSensitivity L = 0) ls.

Section LoopInvariants.

Context {Q : PriorityQueue}.

(** The queue holds exactly the scored loans of the master list: the state
    [rebuildHeap] leaves. *)
Definition Rebuilt (s : Scheduler) : Prop :=
  Permutation (pq_items (pq s)) (map (entryOf (inflationRate s)) (loans s)).

(** More cash than is owed in total. *)
Definition Overpaid (st : AllocState) : Prop :=
  Rebuilt (al_sched st)
  /\ loans (al_sched st) <> []
  /\ NoDup (map id (loans (al_sched st)))
  /\ Forall (fun L => 0 <= principal L) (loans (al_sched st))
  /\ totalPrincipal (loans (al_sched st)) < al_amount st.

(** Nothing is owed any more and cash [a] is still in hand. *)
Definition Stuck (a : R) (st : AllocState) : Prop :=
  Rebuilt (al_sched st)
  /\ loans (al_sched st) <> []
  /\ Forall (fun L => principal L = 0) (loans (al_sched st))
  /\ al_amount st = a.

(** Nothing owed is negative. *)
Definition NonNegative (st : AllocState) : Prop :=
  Rebuilt (al_sched st)
  /\ Forall (fun L => 0 <= principal L) (loans (al_sched st)).

(** Only payment lines are written inside the loop, they add up to what
    left the local [amount], and [amount] never falls below 0. *)
Definition Accounted (amount0 : R) (st : AllocState) : Prop :=
  paidTotal (al_trace st) + al_amount st = amount0
  /\ leftoverOf (al_trace st) = 0
  /\ 0 <= al_amount st.

End LoopInvariants.

(** ** Further notions used to state properties *)

(** [!(L.principal <= 1e-6)]: the loan is not settled. *)
Definition isActive (L : Loan) : bool :=
  if Rle_dec (principal L) 1e-6 then false else true.

(** Nothing owed is negative, rate, fee and credit factor are not negative,
    and the loan does not react to inflation (fixed rate, or sensitivity 0
    as for every loan the shell builds). *)
Definition Sound (L : Loan) : Prop :=
  0 <= principal L /\ 0 <= annualRate L /\ 0 <= lateFee L
  /\ 0 <= creditFactor L
  /\ (variableRate L = false \/ inflationSensitivity L = 0).

(** [L'] is [L] but for [principal]. *)
Definition sameButPrincipal (L L' : Loan) : Prop :=
  id L' = id L /\ name L' = name L /\ annualRate L' = annualRate L
  /\ daysUntilDue L' = daysUntilDue L /\ lateFee L' = lateFee L
  /\ creditFactor L' = creditFactor L /\ variableRate L' = variableRate L
  /\ inflationSensitivity L' = inflationSensitivity L.

(** The scores of the rows of an output, in the order written. *)
Fixpoint scoresOf (out : list Event) : list R :=
  match out with
  | [] => []
  | PriorityRow _ score _ _ :: rest => score :: scoresOf rest
  | _ :: rest => scoresOf rest
  end.

Definition descending (l : list R) : Prop :=
  StronglySorted (fun a b => b <= a) l.

(** The rows of the loans of [ls] that are not settled, in list order. *)
Definition activeRows (inflationRate : R) (ls : list Loan) : list Event :=
  map (fun L => rowOf (computePriority L inflationRate) L) (filter isActive ls).

(** The lines [displayPriorities] can write. *)
Definition displayLine (e : Event) : Prop :=
  match e with
  | NoLoansToDisplay | PrioritiesHeader | PriorityRow _ _ _ _
  | AllLoansRepaid => True
  | _ => False
  end.

Section LoweredInvariant.

Context {Q : PriorityQueue}.

(** Against the loans [ls0] the call started with, the loans now differ in
    [principal] only, and owe no more than before and not less than 0. *)
Definition Lowered (ls0 : list Loan) (st : AllocState) : Prop :=
  Rebuilt (al_sched st)
  /\ NoDup (map id (loans (al_sched st)))
  /\ 0 <= al_amount st
  /\ Forall2 (fun X X' => sameButPrincipal X X'
                           /\ 0 <= principal X' <= principal X)
              ls0 (loans (al_sched st)).

End LoweredInvariant.

(** * Properties of the scoring function *)

Lemma log1p_pos (x : R) : 0 < x -> 0 < log1p x.
Proof.
  intros Hx. unfold log1p. rewrite <- ln_1.
  apply ln_increasing; lra.
Qed.

Lemma log1p_increasing (x y : R) : 0 <= x -> x < y -> log1p x < log1p y.
Proof.
  intros Hx Hxy. unfold log1p. apply ln_increasing; lra.
Qed.

Lemma computeUrgency_overdue (days : Z) :
  (days <= 0)%Z -> computeUrgency days = 1.
Proof.
  intros H. unfold computeUrgency.
  destruct (Z.leb_spec days 0); [reflexivity | lia].
Qed.

Lemma computeUrgency_due (days : Z) :
  (0 < days)%Z -> computeUrgency days = 1 / (1 + ln (1 + IZR days)).
Proof.
  intros H. unfold computeUrgency, log1p.
  destruct (Z.leb_spec days 0); [lia | reflexivity].
Qed.

Lemma computeUrgency_pos (days : Z) : 0 < computeUrgency days.
Proof.
  unfold computeUrgency. destruct (Z.leb_spec days 0) as [H | H]; [lra |].
  assert (0 < log1p (IZR days)) by (apply log1p_pos, IZR_lt; lia).
  apply Rdiv_lt_0_compat; lra.
Qed.

Lemma computeUrgency_le_1 (days : Z) : computeUrgency days <= 1.
Proof.
  unfold computeUrgency. destruct (Z.leb_spec days 0) as [H | H]; [lra |].
  assert (0 < log1p (IZR days)) by (apply log1p_pos, IZR_lt; lia).
  apply (Rmult_le_reg_r (1 + log1p (IZR days))); [lra |].
  unfold Rdiv. rewrite Rmult_assoc, Rinv_l by lra. lra.
Qed.

Lemma computeUrgency_decreasing (d1 d2 : Z) :
  (0 < d1)%Z -> (d1 < d2)%Z -> computeUrgency d2 < computeUrgency d1.
Proof.
  intros H1 H12. unfold computeUrgency.
  destruct (Z.leb_spec d1 0); [lia |].
  destruct (Z.leb_spec d2 0); [lia |].
  assert (0 < log1p (IZR d1)) by (apply log1p_pos, IZR_lt; lia).
  assert (log1p (IZR d1) < log1p (IZR d2)).
  { apply log1p_increasing; [apply IZR_le; lia | apply IZR_lt; lia]. }
  unfold Rdiv. rewrite !Rmult_1_l.
  apply Rinv_lt_contravar; [| lra].
  apply Rmult_lt_0_compat; lra.
Qed.

(** C4.  [computeUrgency days] is exactly 1 for [days <= 0]; for [days > 0]
    it is [1 / (1 + ln (1 + days))], strictly between 0 and 1, and strictly
    decreasing in [days]. *)
Theorem computeUrgency_spec :
  (forall days, (days <= 0)%Z -> computeUrgency days = 1)
  /\ (forall days, (0 < days)%Z ->
        computeUrgency days = 1 / (1 + ln (1 + IZR days))
        /\ 0 < computeUrgency days < 1)
  /\ (forall d1 d2, (0 < d1)%Z -> (d1 < d2)%Z ->
        computeUrgency d2 < computeUrgency d1).
Proof.
  split; [exact computeUrgency_overdue |]. split.
  - intros days H. split; [exact (computeUrgency_due days H) |].
    split; [apply computeUrgency_pos |].
    unfold computeUrgency. destruct (Z.leb_spec days 0); [lia |].
    assert (0 < log1p (IZR days)) by (apply log1p_pos, IZR_lt; lia).
    apply (Rmult_lt_reg_r (1 + log1p (IZR days))); [lra |].
    unfold Rdiv. rewrite Rmult_assoc, Rinv_l by lra. lra.
  - exact computeUrgency_decreasing.
Qed.

Lemma computeUrgency_spec_witness :
  computeUrgency (-3) = 1
  /\ (computeUrgency 2 = 1 / (1 + ln (1 + IZR 2)) /\ 0 < computeUrgency 2 < 1)
  /\ computeUrgency 7 < computeUrgency 2.
Proof.
  destruct computeUrgency_spec as [H0 [H1 H2]].
  split; [apply H0; lia |].
  split; [apply H1; lia | apply H2; lia].
Defined.

Lemma computePriority_settled (L : Loan) (inflationRate : R) :
  principal L <= 1e-6 -> computePriority L inflationRate = -1e15.
Proof.
  intros H. unfold computePriority.
  destruct (Rle_dec (principal L) 1e-6); [reflexivity | contradiction].
Qed.

Lemma computePriority_active (L : Loan) (inflationRate : R) :
  1e-6 < principal L ->
  computePriority L inflationRate =
  let priority :=
      (annualRate L / 100) * (principal L / 1000) * 1.5
      + clamp (lateFee L / Rmax 1 (principal L)) 0 5e3 * 10000
        * computeUrgency (daysUntilDue L) * 0.8
      + creditFactor L * 100 * 0.8
      + computeUrgency (daysUntilDue L) * 5000
      + inflationAdj L inflationRate in
  if (daysUntilDue L <=? 5)%Z then priority * 1.25 else priority.
Proof.
  intros H. unfold computePriority.
  destruct (Rle_dec (principal L) 1e-6); [lra | reflexivity].
Qed.

Lemma clamp_clampInto (v lo hi : R) :
  lo <= hi -> clamp v lo hi = Spec.clampInto lo hi v.
Proof.
  intros H. unfold clamp, Spec.clampInto, Rmax, Rmin.
  destruct (Rle_dec v hi), (Rlt_dec v lo), (Rlt_dec hi v);
    try destruct (Rle_dec lo v); try destruct (Rle_dec lo hi); lra.
Qed.

Lemma urgency_computeUrgency (days : Z) :
  Spec.urgency days = computeUrgency days.
Proof.
  unfold Spec.urgency, computeUrgency, log1p.
  destruct (Z.ltb_spec 0 days), (Z.leb_spec days 0); (reflexivity || lia).
Qed.

(** C3.  For a loan that is not settled the score is the weighted sum
    1.5*interestImpact + 0.8*penaltyWeight + 0.8*creditImpact + 5000*urgency
    + inflationAdjustment of section 4.1, and when [daysUntilDue <= 5] it is
    1.25 times that whole sum. *)
Theorem computePriority_formula (L : Loan) (inflationRate : R) :
  1e-6 < principal L ->
  computePriority L inflationRate = Spec.priority L inflationRate
  /\ ((daysUntilDue L <= 5)%Z ->
      computePriority L inflationRate
      = 1.25 * (1.5 * Spec.interestImpact L + 0.8 * Spec.penaltyWeight L
                + 0.8 * Spec.creditImpact L
                + 5000 * Spec.urgency (daysUntilDue L)
                + Spec.inflationAdjustment L inflationRate))
  /\ ((5 < daysUntilDue L)%Z ->
      computePriority L inflationRate
      = 1.5 * Spec.interestImpact L + 0.8 * Spec.penaltyWeight L
        + 0.8 * Spec.creditImpact L + 5000 * Spec.urgency (daysUntilDue L)
        + Spec.inflationAdjustment L inflationRate).
Proof.
  intros H.
  assert (E : computePriority L inflationRate = Spec.priority L inflationRate).
  { rewrite computePriority_active by exact H.
    unfold Spec.priority, Spec.weightedSum, Spec.penaltyWeight,
      Spec.penaltyRatio, Spec.interestImpact, Spec.creditImpact,
      Spec.inflationAdjustment, inflationAdj.
    rewrite urgency_computeUrgency.
    rewrite <- clamp_clampInto by lra.
    replace 5e3 with 5000 by lra.
    cbv zeta. destruct (daysUntilDue L <=? 5)%Z; ring. }
  split; [exact E |].
  rewrite E. unfold Spec.priority, Spec.weightedSum.
  split; intros Hd.
  - destruct (Z.leb_spec (daysUntilDue L) 5); [reflexivity | lia].
  - destruct (Z.leb_spec (daysUntilDue L) 5); [lia | reflexivity].
Qed.

Lemma computePriority_formula_witness :
  computePriority loanA 0.05 = Spec.priority loanA 0.05
  /\ computePriority loanA 0.05
     = 1.25 * (1.5 * Spec.interestImpact loanA + 0.8 * Spec.penaltyWeight loanA
               + 0.8 * Spec.creditImpact loanA
               + 5000 * Spec.urgency (daysUntilDue loanA)
               + Spec.inflationAdjustment loanA 0.05)
  /\ computePriority loanB 0.05
     = 1.5 * Spec.interestImpact loanB + 0.8 * Spec.penaltyWeight loanB
       + 0.8 * Spec.creditImpact loanB + 5000 * Spec.urgency (daysUntilDue loanB)
       + Spec.inflationAdjustment loanB 0.05.
Proof.
  assert (HA : 1e-6 < principal loanA) by (simpl; lra).
  assert (HB : 1e-6 < principal loanB) by (simpl; lra).
  destruct (computePriority_formula loanA 0.05 HA) as [E [Hboost _]].
  destruct (computePriority_formula loanB 0.05 HB) as [_ [_ Hplain]].
  split; [exact E |].
  split; [apply Hboost; simpl; lia | apply Hplain; simpl; lia].
Defined.

Lemma clamp_monotone (v w lo hi : R) : v <= w -> clamp v lo hi <= clamp w lo hi.
Proof.
  intros H. unfold clamp, Rmin.
  destruct (Rle_dec v hi), (Rle_dec w hi); unfold Rmax;
    repeat match goal with
           | |- context [Rle_dec ?a ?b] => destruct (Rle_dec a b)
           end; lra.
Qed.

Lemma boost_monotone (b : bool) (x y : R) :
  x <= y -> (if b then x * 1.25 else x) <= (if b then y * 1.25 else y).
Proof. intros H. destruct b; lra. Qed.

Lemma computePriority_annualRate_monotone (L : Loan) (inflationRate r1 r2 : R) :
  r1 <= r2 ->
  computePriority (set_annualRate L r1) inflationRate
  <= computePriority (set_annualRate L r2) inflationRate.
Proof.
  intros Hr.
  destruct (Rle_dec (principal L) 1e-6) as [Hs | Hs].
  - rewrite !computePriority_settled by exact Hs. lra.
  - rewrite !computePriority_active by (simpl; lra).
    unfold inflationAdj, set_annualRate.
    cbn [principal annualRate daysUntilDue lateFee creditFactor variableRate
         inflationSensitivity].
    apply boost_monotone.
    assert (r1 / 100 * (principal L / 1000) <= r2 / 100 * (principal L / 1000))
      by nra.
    lra.
Qed.

Lemma computePriority_lateFee_monotone (L : Loan) (inflationRate f1 f2 : R) :
  f1 <= f2 ->
  computePriority (set_lateFee L f1) inflationRate
  <= computePriority (set_lateFee L f2) inflationRate.
Proof.
  intros Hf.
  destruct (Rle_dec (principal L) 1e-6) as [Hs | Hs].
  - rewrite !computePriority_settled by exact Hs. lra.
  - rewrite !computePriority_active by (simpl; lra).
    unfold inflationAdj, set_lateFee.
    cbn [principal annualRate daysUntilDue lateFee creditFactor variableRate
         inflationSensitivity].
    apply boost_monotone.
    pose proof (computeUrgency_pos (daysUntilDue L)) as Hu.
    assert (Hm : 0 < Rmax 1 (principal L)).
    { pose proof (Rmax_l 1 (principal L)). lra. }
    assert (Hq : f1 / Rmax 1 (principal L) <= f2 / Rmax 1 (principal L)).
    { unfold Rdiv. apply Rmult_le_compat_r; [| exact Hf].
      apply Rlt_le, Rinv_0_lt_compat, Hm. }
    pose proof (clamp_monotone _ _ 0 5e3 Hq) as Hc.
    assert (clamp (f1 / Rmax 1 (principal L)) 0 5e3 * 10000
              * computeUrgency (daysUntilDue L)
            <= clamp (f2 / Rmax 1 (principal L)) 0 5e3 * 10000
              * computeUrgency (daysUntilDue L)) by nra.
    lra.
Qed.

(** C6.  For a loan that is not settled, with every other attribute and the
    inflation rate fixed, a larger [annualRate] never gives a smaller score,
    and a larger [lateFee] never gives a smaller score. *)
Theorem computePriority_monotone (L : Loan) (inflationRate : R) :
  1e-6 < principal L ->
  (forall r1 r2, r1 <= r2 ->
     computePriority (set_annualRate L r1) inflationRate
     <= computePriority (set_annualRate L r2) inflationRate)
  /\ (forall f1 f2, f1 <= f2 ->
     computePriority (set_lateFee L f1) inflationRate
     <= computePriority (set_lateFee L f2) inflationRate).
Proof.
  intros _. split.
  - intros r1 r2. apply computePriority_annualRate_monotone.
  - intros f1 f2. apply computePriority_lateFee_monotone.
Qed.

Lemma computePriority_monotone_witness :
  computePriority (set_annualRate loanA 8) 0.05
  <= computePriority (set_annualRate loanA 12) 0.05
  /\ computePriority (set_lateFee loanA 100) 0.05
     <= computePriority (set_lateFee loanA 500) 0.05.
Proof.
  assert (HA : 1e-6 < principal loanA) by (simpl; lra).
  destruct (computePriority_monotone loanA 0.05 HA) as [Hr Hf].
  split; [apply Hr; lra | apply Hf; lra].
Defined.

(** * The reference queue obeys the container's laws *)

Lemma list_top_nil (l : list Entry) : list_top l = None <-> l = [].
Proof.
  destruct l as [| x r]; simpl; [tauto |].
  split; [| discriminate].
  destruct (list_top r) as [y |]; [| discriminate].
  destruct (Rlt_dec (fst x) (fst y)); discriminate.
Qed.

Lemma list_top_pop (l : list Entry) :
  l <> [] ->
  exists x, list_top l = Some x
         /\ Forall (fun y => fst y <= fst x) l
         /\ Permutation l (x :: list_pop l).
Proof.
  induction l as [| a r IH]; [congruence |]. intros _.
  destruct r as [| b r'].
  - exists a. simpl. repeat split; auto.
    constructor; [lra | constructor].
  - destruct IH as [y [Hy [Hmax Hperm]]]; [discriminate |].
    cbn [list_top list_pop] in *. rewrite Hy.
    destruct (Rlt_dec (fst a) (fst y)) as [Hlt | Hge].
    + exists y. split; [reflexivity |]. split.
      * constructor; [lra | exact Hmax].
      * rewrite Hperm at 1. apply perm_swap.
    + exists a. split; [reflexivity |]. split; [| reflexivity].
      constructor; [lra |].
      eapply Forall_impl; [| exact Hmax]. cbv beta. intros e He. lra.
Qed.

Lemma ListPQ_laws : PriorityQueueLaws ListPQ.
Proof.
  constructor; cbn.
  - reflexivity.
  - intros [| x q]; split; (reflexivity || discriminate).
  - reflexivity.
  - intros x q. symmetry. apply Permutation_cons_append.
  - intros q ->. reflexivity.
  - exact list_top_pop.
Qed.

(** * Properties of the scheduler *)

Section SchedulerFacts.

Context {Q : PriorityQueue} (HQ : PriorityQueueLaws Q).

Lemma pq_empty_false (q : pq_t) : pq_empty q = false <-> pq_items q <> [].
Proof.
  pose proof (pq_empty_spec Q HQ q) as H.
  destruct (pq_empty q); split; intros; try congruence.
  - destruct H as [H _]. specialize (H eq_refl). congruence.
  - intros E. apply H in E. discriminate.
Qed.

Lemma pq_pop_length (q : pq_t) :
  pq_items q <> [] ->
  List.length (pq_items q) = S (List.length (pq_items (pq_pop q))).
Proof.
  intros H. destruct (pq_top_pop Q HQ q H) as [x [_ [_ Hp]]].
  rewrite (Permutation_length Hp). reflexivity.
Qed.

Lemma pq_top_In (q : pq_t) (x : Entry) :
  pq_top q = Some x ->
  In x (pq_items q)
  /\ Forall (fun y => fst y <= fst x) (pq_items q)
  /\ Permutation (pq_items q) (x :: pq_items (pq_pop q)).
Proof.
  intros Ht.
  destruct (pq_items q) as [| e l] eqn:E.
  - rewrite (pq_top_none Q HQ q E) in Ht. discriminate.
  - assert (Hne : pq_items q <> []) by (rewrite E; discriminate).
    destruct (pq_top_pop Q HQ q Hne) as [y [Hy [Hmax Hp]]].
    rewrite Hy in Ht. injection Ht as ->. rewrite <- E.
    repeat split; auto.
    eapply Permutation_in; [symmetry; exact Hp | left; reflexivity].
Qed.

Lemma clearLoop_items (fuel : nat) :
  forall q, (List.length (pq_items q) <= fuel)%nat ->
            pq_items (clearLoop fuel q) = [].
Proof.
  induction fuel as [| f IH]; intros q Hlen; simpl.
  - destruct (pq_items q); [reflexivity | simpl in Hlen; lia].
  - destruct (pq_empty q) eqn:E.
    + apply (pq_empty_spec Q HQ), E.
    + apply pq_empty_false in E. apply IH.
      rewrite (pq_pop_length q E) in Hlen. lia.
Qed.

Lemma clearHeap_items (q : pq_t) : pq_items (clearHeap q) = [].
Proof.
  unfold clearHeap. apply clearLoop_items.
  rewrite (pq_size_spec Q HQ). lia.
Qed.

Lemma push_all_items (rate : R) (ls : list Loan) :
  forall q,
    Permutation
      (pq_items (fold_left (fun q L => pq_push (computePriority L rate, L) q)
                           ls q))
      (pq_items q ++ map (fun L => (computePriority L rate, L)) ls).
Proof.
  induction ls as [| L ls IH]; intros q; simpl.
  - rewrite app_nil_r. reflexivity.
  - rewrite IH. rewrite (pq_items_push Q HQ).
    simpl. apply Permutation_middle.
Qed.

Lemma rebuildHeap_items (s : Scheduler) :
  Permutation (pq_items (pq (rebuildHeap s)))
              (map (fun L => (computePriority L (inflationRate s), L)) (loans s)).
Proof.
  unfold rebuildHeap. cbn [pq].
  rewrite push_all_items, clearHeap_items. reflexivity.
Qed.

Lemma rebuildHeap_In (s : Scheduler) (e : Entry) :
  In e (pq_items (pq (rebuildHeap s)))
  <-> exists L, In L (loans s) /\ e = (computePriority L (inflationRate s), L).
Proof.
  split.
  - intros H. apply (Permutation_in _ (rebuildHeap_items s)) in H.
    apply in_map_iff in H. destruct H as [L [E HL]]. eauto.
  - intros [L [HL ->]].
    apply (Permutation_in _ (Permutation_sym (rebuildHeap_items s))).
    apply in_map_iff. exists L. split; [reflexivity | exact HL].
Qed.

Lemma rebuildHeap_nonempty (s : Scheduler) :
  loans s <> [] -> pq_empty (pq (rebuildHeap s)) = false.
Proof.
  intros H. apply pq_empty_false. intros E.
  pose proof (rebuildHeap_items s) as Hp. rewrite E in Hp.
  apply Permutation_nil in Hp. destruct (loans s); [congruence | discriminate].
Qed.

Lemma rebuildHeap_size (s : Scheduler) :
  pq_size (pq (rebuildHeap s)) = List.length (loans s).
Proof.
  rewrite (pq_size_spec Q HQ), (Permutation_length (rebuildHeap_items s)).
  apply length_map.
Qed.

End SchedulerFacts.

Section DisplayFacts.

Context {Q : PriorityQueue} (HQ : PriorityQueueLaws Q).

Lemma displayLoop_rows (fuel : nat) :
  forall temp anyShown e,
    In e (snd (displayLoop fuel temp anyShown)) ->
    exists score L, In (score, L) (pq_items temp)
                    /\ 1e-6 < principal L /\ e = rowOf score L.
Proof.
  induction fuel as [| f IH]; intros temp b e; simpl; [tauto |].
  destruct (pq_empty temp); [simpl; tauto |].
  destruct (pq_top temp) as [[score L] |] eqn:Ht; [| simpl; tauto].
  destruct (pq_top_In HQ temp _ Ht) as [Hin [_ Hp]].
  assert (Hsub : forall x, In x (pq_items (pq_pop temp)) -> In x (pq_items temp)).
  { intros x Hx. eapply Permutation_in; [symmetry; exact Hp | right; exact Hx]. }
  destruct (Rle_dec (principal L) 1e-6) as [Hs | Hs].
  - intros He. destruct (IH _ _ _ He) as [sc [L' [H1 H2]]]. eauto.
  - destruct (displayLoop f (pq_pop temp) true) as [shown out] eqn:E.
    simpl. intros [<- | He].
    + exists score, L. repeat split; [exact Hin | lra].
    + specialize (IH (pq_pop temp) true e). rewrite E in IH.
      destruct (IH He) as [sc [L' [H1 H2]]]. eauto.
Qed.

Lemma displayLoop_shown (fuel : nat) :
  forall temp anyShown,
    fst (displayLoop fuel temp anyShown)
    = (anyShown
       || match snd (displayLoop fuel temp anyShown) with
          | [] => false
          | _ :: _ => true
          end)%bool.
Proof.
  induction fuel as [| f IH]; intros temp b; simpl;
    [now rewrite orb_false_r |].
  destruct (pq_empty temp); [simpl; now rewrite orb_false_r |].
  destruct (pq_top temp) as [[score L] |]; [| simpl; now rewrite orb_false_r].
  destruct (Rle_dec (principal L) 1e-6); [apply IH |].
  specialize (IH (pq_pop temp) true).
  destruct (displayLoop f (pq_pop temp) true) as [shown out].
  simpl in *. rewrite IH. now rewrite orb_true_r.
Qed.

Lemma displayLoop_all_settled (fuel : nat) :
  forall temp anyShown,
    (forall score L, In (score, L) (pq_items temp) -> principal L <= 1e-6) ->
    displayLoop fuel temp anyShown = (anyShown, []).
Proof.
  induction fuel as [| f IH]; intros temp b Hall; simpl; [reflexivity |].
  destruct (pq_empty temp); [reflexivity |].
  destruct (pq_top temp) as [[score L] |] eqn:Ht; [| reflexivity].
  destruct (pq_top_In HQ temp _ Ht) as [Hin [_ Hp]].
  destruct (Rle_dec (principal L) 1e-6) as [Hs | Hs].
  - apply IH. intros sc L' H. apply (Hall sc).
    eapply Permutation_in; [symmetry; exact Hp | right; exact H].
  - exfalso. apply Hs, (Hall score), Hin.
Qed.

Lemma displayLoop_complete (fuel : nat) :
  forall temp anyShown score L,
    (List.length (pq_items temp) <= fuel)%nat ->
    In (score, L) (pq_items temp) -> 1e-6 < principal L ->
    In (rowOf score L) (snd (displayLoop fuel temp anyShown)).
Proof.
  induction fuel as [| f IH]; intros temp b score L Hlen Hin Hact.
  - destruct (pq_items temp); [contradiction | simpl in Hlen; lia].
  - simpl.
    assert (Hne : pq_items temp <> []) by (intros E; rewrite E in Hin; exact Hin).
    rewrite (proj2 (pq_empty_false HQ temp) Hne).
    destruct (pq_top_pop Q HQ temp Hne) as [[sc0 L0] [Ht [_ Hp]]].
    rewrite Ht.
    assert (Hlen' : (List.length (pq_items (pq_pop temp)) <= f)%nat).
    { rewrite (pq_pop_length HQ temp Hne) in Hlen. lia. }
    apply (Permutation_in _ Hp) in Hin.
    destruct (Rle_dec (principal L0) 1e-6) as [Hs | Hs].
    + destruct Hin as [E | Hin]; [injection E as -> ->; lra |].
      apply IH; assumption.
    + specialize (IH (pq_pop temp) true score L Hlen').
      destruct (displayLoop f (pq_pop temp) true) as [shown out].
      simpl in *. destruct Hin as [E | Hin].
      * left. injection E as -> ->. reflexivity.
      * right. apply IH; assumption.
Qed.

Lemma displayPriorities_loans (s : Scheduler) :
  loans (fst (displayPriorities s)) = loans s
  /\ inflationRate (fst (displayPriorities s)) = inflationRate s.
Proof.
  unfold displayPriorities. destruct (loans s) eqn:E; [simpl; auto |].
  destruct (displayLoop _ _ _). simpl. auto.
Qed.

Lemma displayPriorities_rows (s : Scheduler) (nm : string) (sc p : R) (d : Z) :
  In (PriorityRow nm sc p d) (snd (displayPriorities s)) ->
  exists L, In L (loans s) /\ 1e-6 < principal L
            /\ PriorityRow nm sc p d = rowOf (computePriority L (inflationRate s)) L.
Proof.
  unfold displayPriorities. destruct (loans s) as [| L0 ls] eqn:E.
  - simpl. intros [H | []]. discriminate.
  - pose proof (displayLoop_rows (pq_size (pq (rebuildHeap s)))
                  (pq (rebuildHeap s)) false) as Hrows.
    destruct (displayLoop _ _ _) as [shown rows]. simpl in *.
    intros [H | H]; [discriminate |].
    apply in_app_or in H. destruct H as [H | H].
    + destruct (Hrows _ H) as [score [L [Hin [Hact ->]]]].
      apply (rebuildHeap_In HQ) in Hin. destruct Hin as [L' [HL' Heq]].
      injection Heq as -> ->. rewrite E in HL'.
      exists L'. split; [exact HL' | split; [exact Hact | reflexivity]].
    + destruct shown; simpl in H; [contradiction |].
      destruct H as [H | []]. discriminate.
Qed.

(** Every loan that is not settled gets its row. *)
Lemma displayPriorities_complete (s : Scheduler) (L : Loan) :
  In L (loans s) -> 1e-6 < principal L ->
  In (rowOf (computePriority L (inflationRate s)) L) (snd (displayPriorities s))
  /\ ~ In AllLoansRepaid (snd (displayPriorities s)).
Proof.
  intros HL Hact. unfold displayPriorities.
  destruct (loans s) as [| L0 ls] eqn:E; [contradiction |].
  rewrite <- E in HL.
  assert (Hin : In (computePriority L (inflationRate s), L)
                   (pq_items (pq (rebuildHeap s)))).
  { apply (rebuildHeap_In HQ). eauto. }
  pose proof (displayLoop_complete (pq_size (pq (rebuildHeap s)))
                (pq (rebuildHeap s)) false _ L
                ltac:(rewrite (pq_size_spec Q HQ); lia) Hin Hact) as Hrow.
  pose proof (displayLoop_shown (pq_size (pq (rebuildHeap s)))
                (pq (rebuildHeap s)) false) as Hshown.
  pose proof (displayLoop_rows (pq_size (pq (rebuildHeap s)))
                (pq (rebuildHeap s)) false) as Hrows.
  destruct (displayLoop _ _ _) as [shown rows]. simpl in *.
  destruct rows as [| r rows]; [contradiction |]. subst shown.
  split.
  - right. apply in_or_app. left. exact Hrow.
  - intros [H | H]; [discriminate |].
    rewrite app_nil_r in H.
    destruct (Hrows _ H) as (sc & L' & _ & _ & Heq). discriminate.
Qed.

(** C5.  A loan with [principal <= 1e-6] scores the sentinel -1e15 whatever
    its other attributes and the inflation rate; every row that
    [displayPriorities] writes is the row of a loan of the collection whose
    principal is above 1e-6, so a settled loan never appears. *)
Theorem settled_sentinel_never_displayed :
  (forall L inflationRate,
      principal L <= 1e-6 -> computePriority L inflationRate = -1e15)
  /\ (forall s nm sc p d,
         In (PriorityRow nm sc p d) (snd (displayPriorities s)) ->
         1e-6 < p
         /\ exists L, In L (loans s) /\ 1e-6 < principal L
                      /\ nm = name L /\ p = principal L
                      /\ d = daysUntilDue L
                      /\ sc = computePriority L (inflationRate s))
  /\ (forall s L sc,
         In L (loans s) -> principal L <= 1e-6 ->
         ~ In (rowOf sc L) (snd (displayPriorities s))).
Proof.
  split; [exact computePriority_settled |]. split.
  - intros s nm sc p d H.
    destruct (displayPriorities_rows s nm sc p d H) as [L [HL [Hact E]]].
    injection E as -> -> -> ->. split; [exact Hact |].
    exists L. repeat split; assumption.
  - intros s L sc _ Hs H.
    destruct (displayPriorities_rows s _ _ _ _ H) as [L' [_ [Hact E]]].
    injection E as _ _ Hp _. lra.
Qed.

End DisplayFacts.

(** * The allocation loop *)

Lemma paidTotal_app (out1 out2 : list Event) :
  paidTotal (out1 ++ out2) = paidTotal out1 + paidTotal out2.
Proof.
  induction out1 as [| e out1 IH]; simpl; [lra |].
  destruct e; rewrite ?IH; lra.
Qed.

Lemma leftoverOf_app (out1 out2 : list Event) :
  leftoverOf (out1 ++ out2) = leftoverOf out1 + leftoverOf out2.
Proof.
  induction out1 as [| e out1 IH]; simpl; [lra |].
  destruct e; rewrite ?IH; lra.
Qed.

Lemma updateMaster_ids (ls : list Loan) (lid : Z) (p : R) :
  map id (updateMaster ls lid p) = map id ls.
Proof.
  induction ls as [| L ls IH]; simpl; [reflexivity |].
  destruct (id L =? lid)%Z; simpl; [reflexivity | now rewrite IH].
Qed.

Lemma updateMaster_nonempty (ls : list Loan) (lid : Z) (p : R) :
  ls <> [] -> updateMaster ls lid p <> [].
Proof.
  destruct ls as [| L ls]; [congruence |]. intros _. simpl.
  destruct (id L =? lid)%Z; discriminate.
Qed.

Lemma updateMaster_Forall (P : R -> Prop) (ls : list Loan) (lid : Z) (p : R) :
  P p -> Forall (fun L => P (principal L)) ls ->
  Forall (fun L => P (principal L)) (updateMaster ls lid p).
Proof.
  intros Hp. induction 1 as [| L ls HL Hls IH]; simpl; [constructor |].
  destruct (id L =? lid)%Z; constructor; auto.
Qed.

Lemma updateMaster_total (ls : list Loan) (L : Loan) (p : R) :
  NoDup (map id ls) -> In L ls ->
  totalPrincipal (updateMaster ls (id L) p)
  = totalPrincipal ls - principal L + p.
Proof.
  induction ls as [| L0 ls IH]; intros Hnd Hin; [contradiction |].
  simpl in Hnd. inversion Hnd as [| i l Hnotin Hnd']; subst.
  simpl. destruct (Z.eqb_spec (id L0) (id L)) as [E | E].
  - destruct Hin as [-> | Hin]; [simpl; lra |].
    exfalso. apply Hnotin. rewrite E. apply in_map, Hin.
  - destruct Hin as [-> | Hin]; [congruence |].
    simpl. rewrite (IH Hnd' Hin). lra.
Qed.

Section AllocFacts.

Context {Q : PriorityQueue} (HQ : PriorityQueueLaws Q).

(** An invariant of the loop holds after any number of turns, and in the
    state the loop leaves, when it leaves. *)
Lemma allocIter_invariant (P : AllocState -> Prop) :
  (forall st, P st -> allocCond st = true -> P (allocBody st)) ->
  forall n st, P st -> P (allocIter n st).
Proof.
  intros Hstep. induction n as [| n IH]; intros st HP; simpl; [exact HP |].
  destruct (allocCond st) eqn:E; [apply IH, Hstep; assumption | exact HP].
Qed.

Lemma allocLoop_invariant (P : AllocState -> Prop) :
  (forall st, P st -> allocCond st = true -> P (allocBody st)) ->
  forall fuel st st', P st -> allocLoop fuel st = Some st' ->
                      P st' /\ allocCond st' = false.
Proof.
  intros Hstep. induction fuel as [| f IH]; intros st st' HP; simpl;
    destruct (allocCond st) eqn:E; try discriminate.
  - intros H. injection H as <-. auto.
  - apply IH, Hstep; assumption.
  - intros H. injection H as <-. auto.
Qed.

(** While the condition holds in every state of an invariant, the loop
    cannot be left. *)
Lemma allocLoop_stuck (P : AllocState -> Prop) :
  (forall st, P st -> allocCond st = true /\ P (allocBody st)) ->
  forall fuel st, P st -> allocLoop fuel st = None.
Proof.
  intros Hstep. induction fuel as [| f IH]; intros st HP; simpl;
    destruct (Hstep st HP) as [-> HP']; [reflexivity | apply IH, HP'].
Qed.

Lemma rebuildHeap_Rebuilt (s : Scheduler) : Rebuilt (rebuildHeap s).
Proof. unfold Rebuilt. exact (rebuildHeap_items HQ s). Qed.

Lemma Rebuilt_top (s : Scheduler) :
  Rebuilt s -> loans s <> [] ->
  pq_empty (pq s) = false
  /\ exists L, pq_top (pq s) = Some (entryOf (inflationRate s) L)
               /\ In L (loans s).
Proof.
  intros Hr Hne.
  assert (Hi : pq_items (pq s) <> []).
  { intros E. unfold Rebuilt in Hr. rewrite E in Hr.
    apply Permutation_nil in Hr. destruct (loans s); [congruence | discriminate]. }
  split; [apply (pq_empty_false HQ), Hi |].
  destruct (pq_top_pop Q HQ _ Hi) as [x [Ht _]].
  destruct (pq_top_In HQ _ _ Ht) as [Hin _].
  apply (Permutation_in _ Hr) in Hin. apply in_map_iff in Hin.
  destruct Hin as [L [<- HL]]. exists L. auto.
Qed.

(** One turn of the loop, spelled out. *)
Lemma allocBody_eq (st : AllocState) :
  Rebuilt (al_sched st) -> loans (al_sched st) <> [] ->
  exists L, In L (loans (al_sched st))
    /\ allocBody st =
       let pay := Rmin (al_amount st) (principal L) in
       mkAllocState
         (rebuildHeap
            (mkScheduler
               (updateMaster (loans (al_sched st)) (id L) (principal L - pay))
               (inflationRate (al_sched st))
               (pq_pop (pq (al_sched st)))))
         (al_amount st - pay)
         (al_trace st ++ [Paid pay (name L) (principal L - pay)]).
Proof.
  intros Hr Hne. destruct (Rebuilt_top _ Hr Hne) as [_ [L [Ht HL]]].
  exists L. split; [exact HL |].
  unfold allocBody. rewrite Ht. reflexivity.
Qed.

Lemma allocBody_conserves (st : AllocState) :
  paidTotal (al_trace (allocBody st)) + al_amount (allocBody st)
  = paidTotal (al_trace st) + al_amount st.
Proof.
  unfold allocBody. destruct (pq_top (pq (al_sched st))) as [[sc L] |];
    [| reflexivity].
  cbn [al_trace al_amount principal set_principal].
  rewrite paidTotal_app. simpl. lra.
Qed.

End AllocFacts.

Lemma totalPrincipal_nonneg (ls : list Loan) :
  Forall (fun L => 0 <= principal L) ls -> 0 <= totalPrincipal ls.
Proof. induction 1; simpl; lra. Qed.

Section AllocClaims.

Context {Q : PriorityQueue} (HQ : PriorityQueueLaws Q).

Lemma allocCond_true (st : AllocState) :
  Rebuilt (al_sched st) -> loans (al_sched st) <> [] -> 0 < al_amount st ->
  allocCond st = true.
Proof.
  intros Hr Hne Ha. unfold allocCond.
  destruct (Rlt_dec 0 (al_amount st)); [| contradiction].
  destruct (Rebuilt_top HQ _ Hr Hne) as [-> _]. reflexivity.
Qed.

Lemma Overpaid_step (st : AllocState) :
  Overpaid st -> allocCond st = true /\ Overpaid (allocBody st).
Proof.
  intros (Hr & Hne & Hnd & Hpos & Hlt).
  pose proof (totalPrincipal_nonneg _ Hpos) as Htot.
  split; [apply allocCond_true; auto; lra |].
  destruct (allocBody_eq HQ st Hr Hne) as [L [HL ->]]. cbv zeta.
  pose proof (Rmin_r (al_amount st) (principal L)) as Hpay.
  unfold Overpaid. cbn [al_sched al_amount].
  split; [apply (rebuildHeap_Rebuilt HQ) |].
  cbn [rebuildHeap loans].
  split; [apply updateMaster_nonempty, Hne |].
  split; [rewrite updateMaster_ids; exact Hnd |].
  split; [apply (updateMaster_Forall (fun p => 0 <= p)); [lra | exact Hpos] |].
  rewrite (updateMaster_total _ _ _ Hnd HL). lra.
Qed.

Lemma Stuck_step (a : R) (st : AllocState) :
  0 < a -> Stuck a st -> allocCond st = true /\ Stuck a (allocBody st).
Proof.
  intros Ha (Hr & Hne & Hzero & Hamt).
  split; [apply allocCond_true; auto; lra |].
  destruct (allocBody_eq HQ st Hr Hne) as [L [HL ->]]. cbv zeta.
  assert (HL0 : principal L = 0).
  { rewrite Forall_forall in Hzero. apply Hzero, HL. }
  assert (Hpay : Rmin (al_amount st) (principal L) = 0).
  { rewrite HL0, Hamt. apply Rmin_right. lra. }
  rewrite Hpay, HL0.
  unfold Stuck. cbn [al_sched al_amount].
  split; [apply (rebuildHeap_Rebuilt HQ) |].
  cbn [rebuildHeap loans].
  split; [apply updateMaster_nonempty, Hne |].
  split; [apply (updateMaster_Forall (fun p => p = 0)); [lra | exact Hzero] |].
  lra.
Qed.

Lemma NonNegative_step (st : AllocState) :
  NonNegative st -> NonNegative (allocBody st).
Proof.
  intros (Hr & Hpos).
  destruct (loans (al_sched st)) as [| L0 ls] eqn:E.
  - unfold allocBody. unfold Rebuilt in Hr. rewrite E in Hr. simpl in Hr.
    apply Permutation_sym, Permutation_nil in Hr.
    rewrite (pq_top_none Q HQ _ Hr). split; [| rewrite E; constructor].
    unfold Rebuilt. rewrite E, Hr. constructor.
  - assert (Hne : loans (al_sched st) <> []) by (rewrite E; discriminate).
    rewrite <- E in Hpos.
    destruct (allocBody_eq HQ st Hr Hne) as [L [HL ->]]. cbv zeta.
    pose proof (Rmin_r (al_amount st) (principal L)) as Hpay.
    split; cbn [al_sched]; [apply (rebuildHeap_Rebuilt HQ) |].
    cbn [rebuildHeap loans].
    apply (updateMaster_Forall (fun p => 0 <= p)); [lra | exact Hpos].
Qed.

Lemma allocatePayment_stuck (P : AllocState -> Prop) (s : Scheduler) (amount : R) :
  (forall st, P st -> allocCond st = true /\ P (allocBody st)) ->
  loans s <> [] -> 0 < amount ->
  P (mkAllocState (rebuildHeap s) amount []) ->
  forall fuel, allocatePayment fuel s amount = None.
Proof.
  intros Hstep Hne Ha H0 fuel. unfold allocatePayment.
  destruct (loans s) as [| L ls]; [congruence |].
  destruct (Rle_dec amount 0); [lra |].
  rewrite (allocLoop_stuck P Hstep fuel _ H0). reflexivity.
Qed.

Lemma Overpaid_start (s : Scheduler) (amount : R) :
  loans s <> [] -> NoDup (map id (loans s)) ->
  Forall (fun L => 0 <= principal L) (loans s) ->
  totalPrincipal (loans s) < amount ->
  Overpaid (mkAllocState (rebuildHeap s) amount []).
Proof.
  intros Hne Hnd Hpos Hlt. unfold Overpaid. cbn [al_sched al_amount].
  split; [apply (rebuildHeap_Rebuilt HQ) | cbn [rebuildHeap loans]; auto].
Qed.

(** C1 (the code departs from it).  On a non-empty collection with distinct
    ids and non-negative principals, a payment larger than the total owed
    keeps the loop running for ever: after any number of turns cash is still
    in hand and the condition still holds, so [allocatePayment] produces no
    result and never reaches its leftover report. *)
Theorem allocatePayment_overpayment_diverges (s : Scheduler) (amount : R) :
  loans s <> [] -> NoDup (map id (loans s)) ->
  Forall (fun L => 0 <= principal L) (loans s) ->
  totalPrincipal (loans s) < amount ->
  (forall n,
      let st := allocIter n (mkAllocState (rebuildHeap s) amount []) in
      0 < al_amount st /\ allocCond st = true)
  /\ (forall fuel, allocatePayment fuel s amount = None).
Proof.
  intros Hne Hnd Hpos Hlt.
  pose proof (Overpaid_start s amount Hne Hnd Hpos Hlt) as H0.
  pose proof (totalPrincipal_nonneg _ Hpos) as Htot.
  split.
  - intros n st.
    assert (Hn : Overpaid st).
    { apply (allocIter_invariant Overpaid); [| exact H0].
      intros st' H' _. apply Overpaid_step, H'. }
    split; [| apply Overpaid_step, Hn].
    destruct Hn as (_ & _ & _ & Hpos' & Hlt').
    pose proof (totalPrincipal_nonneg _ Hpos'). lra.
  - apply (allocatePayment_stuck Overpaid); auto; [| lra].
    exact Overpaid_step.
Qed.

Lemma allocIter_conserves (n : nat) (st : AllocState) :
  paidTotal (al_trace (allocIter n st)) + al_amount (allocIter n st)
  = paidTotal (al_trace st) + al_amount st.
Proof.
  apply (allocIter_invariant
           (fun st' => paidTotal (al_trace st') + al_amount st'
                       = paidTotal (al_trace st) + al_amount st));
    [| reflexivity].
  intros st' H _. rewrite allocBody_conserves. exact H.
Qed.

(** C8.  With every principal non-negative before the call, every principal
    is non-negative after each turn of the allocation loop, and in the
    scheduler [allocatePayment] returns. *)
Theorem allocatePayment_principal_nonneg (s : Scheduler) (amount : R) :
  Forall (fun L => 0 <= principal L) (loans s) ->
  (forall n,
      Forall (fun L => 0 <= principal L)
             (loans (al_sched (allocIter n (mkAllocState (rebuildHeap s) amount [])))))
  /\ (forall fuel s' out,
         allocatePayment fuel s amount = Some (s', out) ->
         Forall (fun L => 0 <= principal L) (loans s')).
Proof.
  intros Hpos.
  assert (H0 : NonNegative (mkAllocState (rebuildHeap s) amount [])).
  { split; [apply (rebuildHeap_Rebuilt HQ) | exact Hpos]. }
  split.
  - intros n. apply (allocIter_invariant NonNegative); [| exact H0].
    intros st H _. apply NonNegative_step, H.
  - intros fuel s' out. unfold allocatePayment.
    destruct (loans s) as [| L ls] eqn:E.
    + intros H. injection H as <- _. rewrite E. constructor.
    + destruct (Rle_dec amount 0).
      * intros H. injection H as <- _. rewrite E. exact Hpos.
      * destruct (allocLoop fuel _) as [st |] eqn:El; [| discriminate].
        destruct (allocLoop_invariant NonNegative
                    (fun st H _ => NonNegative_step st H) fuel _ st H0 El)
          as [[_ Hst] _].
        pose proof (displayPriorities_loans (al_sched st)) as [Hl _].
        destruct (displayPriorities (al_sched st)) as [s2 shown].
        intros H. injection H as <- _. simpl in Hl. rewrite Hl. exact Hst.
Qed.

End AllocClaims.

Section ReportFacts.

Context {Q : PriorityQueue} (HQ : PriorityQueueLaws Q).

Lemma displayPriorities_all_settled (s : Scheduler) :
  loans s <> [] -> Forall (fun L => principal L <= 1e-6) (loans s) ->
  snd (displayPriorities s) = [PrioritiesHeader; AllLoansRepaid].
Proof.
  intros Hne Hall. unfold displayPriorities.
  destruct (loans s) as [| L0 ls] eqn:E; [congruence |].
  rewrite displayLoop_all_settled; [reflexivity | exact HQ |].
  intros score L Hin. apply (rebuildHeap_In HQ) in Hin.
  destruct Hin as [L' [HL' Heq]]. injection Heq as _ ->.
  rewrite Forall_forall in Hall. apply Hall. rewrite <- E. exact HL'.
Qed.

Lemma Stuck_start (s : Scheduler) (amount : R) :
  loans s <> [] -> Forall (fun L => principal L = 0) (loans s) ->
  Stuck amount (mkAllocState (rebuildHeap s) amount []).
Proof.
  intros Hne Hzero. unfold Stuck. cbn [al_sched al_amount].
  split; [apply (rebuildHeap_Rebuilt HQ) | cbn [rebuildHeap loans]; auto].
Qed.

(** C7 (the code departs from it for [allocatePayment]).  On a non-empty
    collection whose loans all have principal 0, [displayPriorities] writes
    the all-repaid line, which is not what it writes for an empty
    collection; [allocatePayment] reports an invalid amount when
    [amount <= 0] and, for every [amount > 0], never leaves its loop, so it
    reports nothing. *)
Theorem all_settled_display_reports_allocate_hangs (s : Scheduler) :
  loans s <> [] -> Forall (fun L => principal L = 0) (loans s) ->
  snd (displayPriorities s) = [PrioritiesHeader; AllLoansRepaid]
  /\ snd (displayPriorities (newScheduler None)) = [NoLoansToDisplay]
  /\ (forall amount fuel, amount <= 0 ->
        allocatePayment fuel s amount = Some (s, [InvalidPaymentAmount]))
  /\ (forall amount fuel, 0 < amount -> allocatePayment fuel s amount = None).
Proof.
  intros Hne Hzero. split.
  { apply displayPriorities_all_settled; [exact Hne |].
    eapply Forall_impl; [| exact Hzero]. cbv beta. intros L ->. lra. }
  split; [reflexivity |]. split.
  - intros amount fuel Ha. unfold allocatePayment.
    destruct (loans s); [congruence |].
    destruct (Rle_dec amount 0); [reflexivity | contradiction].
  - intros amount fuel Ha.
    apply (allocatePayment_stuck (Stuck amount)); auto.
    + intros st. apply (Stuck_step HQ), Ha.
    + apply Stuck_start; assumption.
Qed.

Lemma oneLoan_first_turn (L : Loan) (rate : option R) (amount : R) :
  let s := addLoan (newScheduler rate) L in
  let st0 := mkAllocState (rebuildHeap s) amount [] in
  let pay := Rmin amount (principal L) in
  0 < amount ->
  allocCond st0 = true
  /\ Rebuilt (al_sched (allocBody st0))
  /\ loans (al_sched (allocBody st0)) = [set_principal L (principal L - pay)]
  /\ al_amount (allocBody st0) = amount - pay
  /\ al_trace (allocBody st0) = [Paid pay (name L) (principal L - pay)].
Proof.
  intros s st0 pay Ha.
  assert (Hr : Rebuilt (al_sched st0)) by apply (rebuildHeap_Rebuilt HQ).
  assert (Hne : loans (al_sched st0) <> []) by discriminate.
  split; [apply (allocCond_true HQ); assumption |].
  destruct (allocBody_eq HQ st0 Hr Hne) as [L' [HL' ->]].
  destruct HL' as [<- | []]. cbv zeta. cbn [al_sched al_amount al_trace].
  split; [apply (rebuildHeap_Rebuilt HQ) |].
  split; [| split; reflexivity].
  cbn [rebuildHeap loans st0 s addLoan newScheduler app updateMaster al_sched].
  rewrite Z.eqb_refl. reflexivity.
Qed.

(** C2 (the code departs from it).  One loan owing 100 and a payment of 200:
    after the first turn and for ever after, the payment lines add up to 100,
    cash 100 is still in hand and the loop condition holds; no result is
    produced and the 100 left over is never reported. *)
Theorem allocatePayment_cash_unaccounted :
  let s := addLoan (newScheduler None) loanCar in
  let st0 := mkAllocState (rebuildHeap s) 200 [] in
  (forall n,
      let st := allocIter (S n) st0 in
      paidTotal (al_trace st) = 100 /\ al_amount st = 100
      /\ allocCond st = true)
  /\ (forall fuel, allocatePayment fuel s 200 = None).
Proof.
  intros s st0.
  assert (Ha : 0 < 200) by lra.
  assert (Hmin : Rmin 200 (principal loanCar) = 100).
  { cbn [principal loanCar Loan_ctor]. apply Rmin_right. lra. }
  destruct (oneLoan_first_turn loanCar None 200 Ha)
    as (Hc & Hr & Hl & Hamt & Htr).
  fold s in Hc, Hr, Hl, Hamt, Htr. fold st0 in Hc, Hr, Hl, Hamt, Htr.
  rewrite Hmin in Hl, Hamt, Htr.
  assert (H1 : Stuck 100 (allocBody st0)).
  { unfold Stuck. split; [exact Hr |]. rewrite Hl.
    split; [discriminate |]. split; [| rewrite Hamt; lra].
    constructor; [| constructor].
    cbn [principal set_principal loanCar Loan_ctor]. lra. }
  split.
  - intros n st.
    assert (Hn : Stuck 100 st).
    { unfold st. cbn [allocIter]. rewrite Hc.
      apply (allocIter_invariant (Stuck 100)); [| exact H1].
      intros st' H' _. apply (Stuck_step HQ); [lra | exact H']. }
    assert (Hcash : paidTotal (al_trace st) + al_amount st = 200).
    { unfold st. rewrite allocIter_conserves. simpl. lra. }
    destruct (Stuck_step HQ 100 st ltac:(lra) Hn) as [Hcond _].
    destruct Hn as (_ & _ & _ & Hamt'). rewrite Hamt' in Hcash.
    repeat split; [lra | exact Hamt' | exact Hcond].
  - apply (allocatePayment_stuck (Overpaid (Q:=Q))).
    + apply (Overpaid_step HQ).
    + discriminate.
    + lra.
    + apply (Overpaid_start HQ); cbn [s addLoan newScheduler loans app].
      * discriminate.
      * repeat constructor. simpl. tauto.
      * repeat constructor. cbn [principal loanCar Loan_ctor]. lra.
      * cbn [totalPrincipal principal loanCar Loan_ctor]. lra.
Qed.

End ReportFacts.

(** * Advancing time, and the shell *)

Section SessionFacts.

Context {Q : PriorityQueue}.

Lemma int_wrap_range (z : Z) : int_range (int_wrap z).
Proof.
  unfold int_range, int_wrap, INT_MIN, INT_MAX.
  pose proof (Z.mod_pos_bound (z + 2147483648) 4294967296 ltac:(lia)). lia.
Qed.

Lemma int_wrap_exact (z : Z) : int_range z -> int_wrap z = z.
Proof.
  unfold int_range, int_wrap, INT_MIN, INT_MAX. intros H.
  rewrite Z.mod_small by lia. lia.
Qed.

Lemma int_sub_exact (a b : Z) : int_range (a - b) -> int_sub a b = (a - b)%Z.
Proof. apply int_wrap_exact. Qed.

Lemma simulateDays_loans (s : Scheduler) (days : Z) :
  days <> 0%Z ->
  loans (fst (simulateDays s days))
  = map (fun L => set_daysUntilDue L (int_sub (daysUntilDue L) days)) (loans s)
  /\ inflationRate (fst (simulateDays s days)) = inflationRate s.
Proof.
  intros Hd. unfold simulateDays.
  destruct (Z.eqb_spec days 0) as [E | _]; [contradiction |].
  match goal with
  | |- context [displayPriorities ?x] =>
      pose proof (displayPriorities_loans x) as [Hl Hr];
      destruct (displayPriorities x) as [s' shown]
  end.
  simpl in *. auto.
Qed.

Lemma simulateDays_loans_exact (s : Scheduler) (days : Z) :
  days <> 0%Z ->
  Forall (fun L => int_range (daysUntilDue L - days)) (loans s) ->
  loans (fst (simulateDays s days))
  = map (fun L => set_daysUntilDue L (daysUntilDue L - days)) (loans s).
Proof.
  intros Hd Hfit. destruct (simulateDays_loans s days Hd) as [-> _].
  apply map_ext_in. intros L HL. rewrite Forall_forall in Hfit.
  rewrite int_sub_exact by (apply Hfit, HL). reflexivity.
Qed.

(** C9.  [simulateDays s 0] writes the nothing-simulated line and returns
    the scheduler as it was.  For every [int] value [days <> 0], of either
    sign, the loans afterwards are the loans before, in order, each with
    the [int] subtraction [daysUntilDue - days] applied and every other
    field as it was; wherever no subtraction leaves the range of [int],
    every [daysUntilDue] is lower by exactly [days] (no bound at 0). *)
Theorem simulateDays_spec (s : Scheduler) (days : Z) :
  (days = 0%Z -> simulateDays s days = (s, [NoDaysSimulated]))
  /\ (days <> 0%Z -> int_range days ->
      Forall (fun L => int_range (daysUntilDue L)) (loans s) ->
      Forall2 (fun L L' => daysUntilDue L' = int_sub (daysUntilDue L) days
                              /\ int_range (daysUntilDue L')
                              /\ sameButDays L L')
              (loans s) (loans (fst (simulateDays s days))))
  /\ (days <> 0%Z -> int_range days ->
      Forall (fun L => int_range (daysUntilDue L - days)) (loans s) ->
      loans (fst (simulateDays s days))
      = map (fun L => set_daysUntilDue L (daysUntilDue L - days)) (loans s)
      /\ Forall2 (fun L L' => daysUntilDue L' = (daysUntilDue L - days)%Z
                              /\ sameButDays L L')
                 (loans s) (loans (fst (simulateDays s days)))).
Proof.
  split; [intros ->; reflexivity |]. split.
  - intros Hd _ _. destruct (simulateDays_loans s days Hd) as [-> _].
    induction (loans s) as [| L ls IH]; simpl; [constructor |].
    constructor; [| exact IH].
    split; [reflexivity |]. split; [apply int_wrap_range |].
    unfold sameButDays. simpl. tauto.
  - intros Hd _ Hfit.
    pose proof (simulateDays_loans_exact s days Hd Hfit) as Hl.
    split; [exact Hl |]. rewrite Hl. clear Hl Hfit.
    induction (loans s) as [| L ls IH]; simpl; [constructor |].
    constructor; [| exact IH].
    unfold sameButDays. simpl. tauto.
Qed.

Lemma inflationAdj_insensitive (L : Loan) (inflationRate : R) :
  inflationSensitivity L = 0 -> inflationAdj L inflationRate = 0.
Proof.
  intros H. unfold inflationAdj. rewrite H.
  destruct (variableRate L); ring.
Qed.

Lemma computePriority_insensitive (L : Loan) (r1 r2 : R) :
  inflationSensitivity L = 0 -> computePriority L r1 = computePriority L r2.
Proof.
  intros H. unfold computePriority.
  rewrite !(inflationAdj_insensitive L _ H). reflexivity.
Qed.

Lemma updateMaster_Insensitive (ls : list Loan) (lid : Z) (p : R) :
  Insensitive ls -> Insensitive (updateMaster ls lid p).
Proof.
  induction 1 as [| L ls HL Hls IH]; simpl; [constructor |].
  destruct (id L =? lid)%Z; constructor; auto.
Qed.

Lemma allocBody_Insensitive (st : AllocState) :
  Insensitive (loans (al_sched st)) ->
  Insensitive (loans (al_sched (allocBody st))).
Proof.
  intros H. unfold allocBody.
  destruct (pq_top (pq (al_sched st))) as [[sc L] |]; [| exact H].
  cbn [al_sched rebuildHeap loans]. apply updateMaster_Insensitive, H.
Qed.

Lemma shellStep_Insensitive (fuel : nat) (sh sh' : Shell) (c : Command) :
  Insensitive (loans (sh_scheduler sh)) ->
  shellStep fuel sh c = Some sh' ->
  Insensitive (loans (sh_scheduler sh')).
Proof.
  intros H. destruct c; simpl.
  - intros E. injection E as <-. cbn [sh_scheduler addLoan loans].
    apply Forall_app. split; [exact H |].
    constructor; [reflexivity | constructor].
  - intros E. injection E as <-. cbn [sh_scheduler].
    destruct (displayPriorities_loans (sh_scheduler sh)) as [-> _]. exact H.
  - unfold allocatePayment.
    destruct (loans (sh_scheduler sh)) as [| L0 ls] eqn:El.
    + intros E. injection E as <-. cbn [sh_scheduler]. rewrite El. constructor.
    + destruct (Rle_dec amt 0).
      * intros E. injection E as <-. cbn [sh_scheduler]. rewrite El. exact H.
      * destruct (allocLoop fuel _) as [st |] eqn:Ea; [| discriminate].
        assert (Hst : Insensitive (loans (al_sched st))).
        { refine (proj1 (allocLoop_invariant
                     (fun st => Insensitive (loans (al_sched st)))
                     (fun st' H' _ => allocBody_Insensitive st' H')
                     fuel _ st _ Ea)).
          cbn [al_sched rebuildHeap loans]. rewrite El. exact H. }
        pose proof (displayPriorities_loans (al_sched st)) as [Hl _].
        destruct (displayPriorities (al_sched st)) as [s2 shown].
        intros E. injection E as <-. cbn [sh_scheduler].
        simpl in Hl. rewrite Hl. exact Hst.
  - intros E. injection E as <-. cbn [sh_scheduler].
    destruct (Z.eq_dec days 0) as [-> | Hd]; [exact H |].
    destruct (simulateDays_loans (sh_scheduler sh) days Hd) as [-> _].
    unfold Insensitive. rewrite Forall_map.
    eapply Forall_impl; [| exact H]. cbv beta. intros L HL. exact HL.
  - intros E. injection E as <-. exact H.
Qed.

(** C10.  The loan the shell builds has [inflationSensitivity = 0]; every
    loan of every state the session reaches has it too, so its inflation
    term is 0 and its score is the same for any two inflation rates,
    whether or not [variableRate] is set. *)
Theorem shell_loans_ignore_inflation :
  (forall next nm princ rate days fee credit varRate,
      inflationSensitivity
        (shellLoan next nm princ rate days fee credit varRate) = 0)
  /\ (forall sh, ShellReach sh ->
        forall L, In L (loans (sh_scheduler sh)) ->
          inflationSensitivity L = 0
          /\ (forall r, inflationAdj L r = 0)
          /\ (forall r1 r2, computePriority L r1 = computePriority L r2)).
Proof.
  split; [reflexivity |].
  intros sh Hreach.
  assert (Hall : Insensitive (loans (sh_scheduler sh))).
  { induction Hreach as [| fuel sh c sh' _ IH Hstep]; [constructor |].
    exact (shellStep_Insensitive fuel sh sh' c IH Hstep). }
  intros L HL. unfold Insensitive in Hall. rewrite Forall_forall in Hall.
  specialize (Hall L HL). split; [exact Hall |]. split.
  - intros r. apply inflationAdj_insensitive, Hall.
  - intros r1 r2. apply computePriority_insensitive, Hall.
Qed.

End SessionFacts.

(** * What the call yields when it does return *)

Section ReturnFacts.

Context {Q : PriorityQueue} (HQ : PriorityQueueLaws Q).

Lemma cashless_totals (out : list Event) :
  Forall cashless out -> paidTotal out = 0 /\ leftoverOf out = 0.
Proof.
  induction 1 as [| e out He _ [IH1 IH2]]; simpl; [auto |].
  destruct e; simpl in He; try contradiction; auto.
Qed.

Lemma displayLoop_cashless (fuel : nat) :
  forall temp anyShown, Forall cashless (snd (displayLoop fuel temp anyShown)).
Proof.
  induction fuel as [| f IH]; intros temp b; simpl; [constructor |].
  destruct (pq_empty temp); [constructor |].
  destruct (pq_top temp) as [[score L] |]; [| constructor].
  destruct (Rle_dec (principal L) 1e-6); [apply IH |].
  specialize (IH (pq_pop temp) true).
  destruct (displayLoop f (pq_pop temp) true) as [shown out].
  simpl in *. constructor; [exact I | exact IH].
Qed.

Lemma displayPriorities_cashless (s : Scheduler) :
  Forall cashless (snd (displayPriorities s)).
Proof.
  unfold displayPriorities. destruct (loans s); [repeat constructor |].
  pose proof (displayLoop_cashless (pq_size (pq (rebuildHeap s)))
                (pq (rebuildHeap s)) false) as H.
  destruct (displayLoop _ _ _) as [shown rows]. simpl in *.
  constructor; [exact I |]. apply Forall_app. split; [exact H |].
  destruct shown; repeat constructor.
Qed.

Lemma Accounted_step (amount0 : R) (st : AllocState) :
  Accounted amount0 st -> Accounted amount0 (allocBody st).
Proof.
  intros (Hsum & Hleft & Hpos). unfold Accounted.
  rewrite allocBody_conserves. split; [exact Hsum |].
  unfold allocBody. destruct (pq_top (pq (al_sched st))) as [[sc L] |];
    [| auto].
  cbn [al_trace al_amount]. rewrite leftoverOf_app. simpl.
  pose proof (Rmin_l (al_amount st) (principal L)). split; lra.
Qed.

(** In the exact arithmetic of this model: whenever [allocatePayment]
    returns, the payment lines and the reported leftover add up to the
    amount passed in. *)
Lemma allocatePayment_returned_conserves
    (fuel : nat) (s s' : Scheduler) (amount : R) (out : list Event) :
  loans s <> [] -> 0 <= amount ->
  allocatePayment fuel s amount = Some (s', out) ->
  paidTotal out + leftoverOf out = amount.
Proof.
  intros Hne Ha. unfold allocatePayment.
  destruct (loans s) as [| L0 ls]; [congruence |].
  destruct (Rle_dec amount 0).
  - intros H. injection H as _ <-. simpl. lra.
  - destruct (allocLoop fuel _) as [st |] eqn:El; [| discriminate].
    assert (H0 : Accounted amount (mkAllocState (rebuildHeap s) amount [])).
    { unfold Accounted. simpl. repeat split; lra. }
    destruct (allocLoop_invariant (Accounted amount)
                (fun st H _ => Accounted_step amount st H) fuel _ st H0 El)
      as [(Hsum & Hleft & Hpos) _].
    pose proof (cashless_totals _ (displayPriorities_cashless (al_sched st)))
      as [Hp Hl].
    destruct (displayPriorities (al_sched st)) as [s2 shown].
    intros H. injection H as _ <-. simpl in Hp, Hl.
    cbn [paidTotal leftoverOf].
    rewrite !paidTotal_app, !leftoverOf_app, Hp, Hl, Hleft.
    destruct (Rlt_dec 0 (al_amount st)); simpl; lra.
Qed.

(** X12.  The leftover line is dead code: a call on a non-empty collection that
    returns has handed out the whole amount. *)
Lemma allocatePayment_returned_no_leftover
    (fuel : nat) (s s' : Scheduler) (amount : R) (out : list Event) :
  loans s <> [] ->
  allocatePayment fuel s amount = Some (s', out) ->
  forall a, ~ In (LeftoverCash a) out.
Proof.
  intros Hne. unfold allocatePayment.
  destruct (loans s) as [| L0 ls] eqn:E; [congruence |].
  destruct (Rle_dec amount 0).
  - intros H. injection H as _ <-. intros a [H | []]. discriminate.
  - set (P := fun st : AllocState =>
                Rebuilt (al_sched st) /\ loans (al_sched st) <> []
                /\ Forall (fun e => exists p nm r, e = Paid p nm r) (al_trace st)).
    assert (Hstep : forall st, P st -> allocCond st = true -> P (allocBody st)).
    { intros st (Hr & Hn & Ht) _.
      destruct (allocBody_eq HQ st Hr Hn) as [L [_ ->]]. cbv zeta.
      unfold P. cbn [al_sched al_trace rebuildHeap loans].
      split; [apply (rebuildHeap_Rebuilt HQ) |].
      split; [apply updateMaster_nonempty, Hn |].
      apply Forall_app. split; [exact Ht |]. repeat constructor. eauto. }
    destruct (allocLoop fuel _) as [st |] eqn:El; [| discriminate].
    assert (H0 : P (mkAllocState (rebuildHeap s) amount [])).
    { unfold P. cbn [al_sched al_trace rebuildHeap loans].
      split; [apply (rebuildHeap_Rebuilt HQ) |].
      split; [rewrite E; discriminate | constructor]. }
    destruct (allocLoop_invariant P Hstep fuel _ st H0 El)
      as [(Hr & Hn & Ht) Hc].
    assert (Hz : ~ 0 < al_amount st).
    { intros Hpos. rewrite (allocCond_true HQ st Hr Hn Hpos) in Hc.
      discriminate. }
    pose proof (displayPriorities_cashless (al_sched st)) as Hd.
    destruct (displayPriorities (al_sched st)) as [s2 shown].
    intros H. injection H as _ <-. simpl in Hd.
    destruct (Rlt_dec 0 (al_amount st)); [contradiction |].
    intros a [H | H]; [discriminate |].
    apply in_app_or in H. destruct H as [H | H].
    + rewrite Forall_forall in Ht. destruct (Ht _ H) as (p & nm & r & Hp).
      discriminate.
    + simpl in H. rewrite Forall_forall in Hd. exact (Hd _ H).
Qed.

(** A payment that the only loan can absorb returns after one turn. *)
Lemma allocatePayment_single_partial (L : Loan) (rate : option R) (amount : R) :
  0 < amount <= principal L ->
  exists s' shown,
    allocatePayment 1 (addLoan (newScheduler rate) L) amount
    = Some (s', AllocatingPayment amount
                  :: Paid amount (name L) (principal L - amount) :: shown)
    /\ loans s' = [set_principal L (principal L - amount)]
    /\ Forall cashless shown.
Proof.
  intros [Ha Hle].
  assert (Hmin : Rmin amount (principal L) = amount) by (apply Rmin_left, Hle).
  destruct (oneLoan_first_turn HQ L rate amount Ha)
    as (Hc & Hr & Hl & Hamt & Htr).
  rewrite Hmin in Hl, Hamt, Htr.
  unfold allocatePayment. cbn [addLoan newScheduler loans app].
  destruct (Rle_dec amount 0); [lra |].
  cbn [allocLoop].
  cbn [addLoan newScheduler loans app] in Hc. rewrite Hc.
  match goal with
  | |- context [allocCond ?st] =>
      assert (Hc1 : allocCond st = false)
  end.
  { unfold allocCond.
    cbn [addLoan newScheduler loans app] in Hamt. rewrite Hamt.
    destruct (Rlt_dec 0 (amount - amount)); [lra | reflexivity]. }
  rewrite Hc1.
  cbn [addLoan newScheduler loans app] in Hl, Hamt, Htr.
  pose proof (displayPriorities_loans (al_sched
                (allocBody
                   {| al_sched := rebuildHeap
                        {| loans := [L];
                           inflationRate := match rate with
                                            | Some r => r
                                            | None => 0.05
                                            end;
                           pq := pq_new |};
                      al_amount := amount; al_trace := [] |}))) as [Hdl _].
  pose proof (displayPriorities_cashless (al_sched
                (allocBody
                   {| al_sched := rebuildHeap
                        {| loans := [L];
                           inflationRate := match rate with
                                            | Some r => r
                                            | None => 0.05
                                            end;
                           pq := pq_new |};
                      al_amount := amount; al_trace := [] |}))) as Hdc.
  destruct (displayPriorities _) as [s2 shown].
  exists s2, shown. rewrite Htr, Hamt. simpl in Hdl, Hdc.
  destruct (Rlt_dec 0 (amount - amount)); [lra |].
  split; [reflexivity |]. split; [rewrite Hdl; exact Hl | exact Hdc].
Qed.

End ReturnFacts.

(** Scenario of the specification: with inflation rate 0.05, loan A (due in
    3 days, late fee 500) scores above loan B (due in 60 days). *)
Lemma loanA_outranks_loanB :
  computePriority loanB 0.05 < computePriority loanA 0.05.
Proof.
  rewrite !computePriority_active
    by (cbn [principal loanA loanB Loan_ctor]; lra).
  unfold inflationAdj.
  cbn [principal annualRate daysUntilDue lateFee creditFactor variableRate
       inflationSensitivity loanA loanB Loan_ctor].
  cbv zeta.
  destruct (Z.leb_spec 3 5); [| lia]. destruct (Z.leb_spec 60 5); [lia |].
  pose proof (computeUrgency_decreasing 3 60 ltac:(lia) ltac:(lia)) as Hlt.
  pose proof (computeUrgency_pos 60) as Hpos.
  assert (EA : clamp (500 / Rmax 1 10000) 0 5e3 = 0.05).
  { rewrite Rmax_right by lra. unfold clamp.
    rewrite Rmin_left by lra. rewrite Rmax_right by lra. lra. }
  assert (EB : clamp (100 / Rmax 1 5000) 0 5e3 = 0.02).
  { rewrite Rmax_right by lra. unfold clamp.
    rewrite Rmin_left by lra. rewrite Rmax_right by lra. lra. }
  rewrite EA, EB. lra.
Qed.

(** * The properties at sample sessions *)

Lemma settled_sentinel_never_displayed_witness :
  computePriority loanPaid 0.05 = -1e15
  /\ (forall sc, ~ In (rowOf sc loanPaid) (snd (displayPriorities sessionMixed))).
Proof.
  destruct (settled_sentinel_never_displayed ListPQ_laws) as [Hs [_ Hd]].
  split.
  - apply Hs. cbn [principal loanPaid Loan_ctor]. lra.
  - intros sc. apply Hd.
    + right. left. reflexivity.
    + cbn [principal loanPaid Loan_ctor]. lra.
Defined.

Lemma allocatePayment_overpayment_diverges_witness :
  (forall n,
      let st := allocIter n (mkAllocState (rebuildHeap sessionAB) 20000 []) in
      0 < al_amount st /\ allocCond st = true)
  /\ (forall fuel, allocatePayment fuel sessionAB 20000 = None).
Proof.
  apply (allocatePayment_overpayment_diverges ListPQ_laws sessionAB 20000).
  - discriminate.
  - cbn. repeat constructor; cbn; intuition discriminate.
  - repeat constructor; cbn [principal loanA loanB Loan_ctor]; lra.
  - cbn [sessionAB addLoan newScheduler loans app totalPrincipal principal
         loanA loanB Loan_ctor]. lra.
Defined.

Lemma allocatePayment_cash_unaccounted_witness :
  (forall n,
      let st := allocIter (S n)
                  (mkAllocState
                     (rebuildHeap (Q:=ListPQ) (addLoan (newScheduler None) loanCar))
                     200 []) in
      paidTotal (al_trace st) = 100 /\ al_amount st = 100
      /\ allocCond st = true)
  /\ (forall fuel,
         allocatePayment (Q:=ListPQ) fuel (addLoan (newScheduler None) loanCar) 200
         = None).
Proof.
  exact (allocatePayment_cash_unaccounted ListPQ_laws).
Defined.

Lemma all_settled_display_reports_allocate_hangs_witness :
  snd (displayPriorities sessionPaid) = [PrioritiesHeader; AllLoansRepaid]
  /\ snd (displayPriorities (Q:=ListPQ) (newScheduler None)) = [NoLoansToDisplay]
  /\ (forall amount fuel, amount <= 0 ->
        allocatePayment fuel sessionPaid amount
        = Some (sessionPaid, [InvalidPaymentAmount]))
  /\ (forall amount fuel, 0 < amount ->
        allocatePayment fuel sessionPaid amount = None).
Proof.
  apply (all_settled_display_reports_allocate_hangs ListPQ_laws sessionPaid).
  - discriminate.
  - repeat constructor.
Defined.

Lemma allocatePayment_principal_nonneg_witness :
  (forall n,
      Forall (fun L => 0 <= principal L)
             (loans (al_sched
                       (allocIter n (mkAllocState (rebuildHeap sessionAB) 3000 [])))))
  /\ (forall fuel s' out,
         allocatePayment fuel sessionAB 3000 = Some (s', out) ->
         Forall (fun L => 0 <= principal L) (loans s')).
Proof.
  apply (allocatePayment_principal_nonneg ListPQ_laws sessionAB 3000).
  repeat constructor; cbn [principal loanA loanB Loan_ctor]; lra.
Defined.

Lemma simulateDays_spec_witness :
  simulateDays sessionAB 0 = (sessionAB, [NoDaysSimulated])
  /\ Forall2 (fun L L' => daysUntilDue L' = int_sub (daysUntilDue L) (-10)
                           /\ int_range (daysUntilDue L')
                           /\ sameButDays L L')
             (loans sessionAB) (loans (fst (simulateDays sessionAB (-10))))
  /\ loans (fst (simulateDays sessionAB (-10)))
     = map (fun L => set_daysUntilDue L (daysUntilDue L - -10)) (loans sessionAB)
  /\ Forall2 (fun L L' => daysUntilDue L' = (daysUntilDue L - -10)%Z
                          /\ sameButDays L L')
             (loans sessionAB) (loans (fst (simulateDays sessionAB (-10)))).
Proof.
  assert (Hdays : int_range (-10)) by (split; cbn; discriminate).
  destruct (simulateDays_spec sessionAB 0) as [H0 _].
  destruct (simulateDays_spec sessionAB (-10)) as (_ & Hw & Hx).
  split; [apply H0; reflexivity |].
  split.
  - apply Hw; [discriminate | exact Hdays |].
    repeat constructor; cbn; discriminate.
  - apply Hx; [discriminate | exact Hdays |].
    repeat constructor; cbn; discriminate.
Defined.

Lemma shell_loans_ignore_inflation_witness :
  ShellReach shellOneLoan
  /\ variableRate (shellLoan 1 "Home" 250000 9 20 1500 0.7 "y") = true
  /\ inflationSensitivity (shellLoan 1 "Home" 250000 9 20 1500 0.7 "y") = 0
  /\ (forall r, inflationAdj (shellLoan 1 "Home" 250000 9 20 1500 0.7 "y") r = 0)
  /\ (forall r1 r2,
        computePriority (shellLoan 1 "Home" 250000 9 20 1500 0.7 "y") r1
        = computePriority (shellLoan 1 "Home" 250000 9 20 1500 0.7 "y") r2).
Proof.
  assert (Hreach : ShellReach shellOneLoan).
  { apply (reach_step 0%nat shellStart
             (CmdAddLoan "Home" 250000 9 20 1500 0.7 "y"));
      [apply reach_start | reflexivity]. }
  split; [exact Hreach |]. split; [reflexivity |].
  destruct (shell_loans_ignore_inflation (Q:=ListPQ)) as [_ H].
  apply (H shellOneLoan Hreach). left. reflexivity.
Defined.

(** * Further properties of the scoring function *)

(** X1.  With [lo <= hi], [clamp v lo hi] lies in [[lo, hi]], is [v] itself when
    [v] already lies there, and clamping twice changes nothing more. *)
Theorem clamp_range (v lo hi : R) :
  lo <= hi ->
  lo <= clamp v lo hi <= hi
  /\ (lo <= v <= hi -> clamp v lo hi = v)
  /\ (v <= lo -> clamp v lo hi = lo)
  /\ (hi <= v -> clamp v lo hi = hi)
  /\ clamp (clamp v lo hi) lo hi = clamp v lo hi.
Proof.
  intros H. rewrite !clamp_clampInto by exact H.
  unfold Spec.clampInto.
  repeat match goal with
         | |- context [Rlt_dec ?a ?b] => destruct (Rlt_dec a b)
         end; repeat split; intros; lra.
Qed.

Lemma clamp_range_witness :
  0 <= clamp 7000 0 5e3 <= 5e3
  /\ clamp 0.05 0 5e3 = 0.05
  /\ clamp (-2) 0 5e3 = 0
  /\ clamp 7000 0 5e3 = 5e3
  /\ clamp (clamp 7000 0 5e3) 0 5e3 = clamp 7000 0 5e3.
Proof.
  assert (H : 0 <= 5e3) by lra.
  destruct (clamp_range 7000 0 5e3 H) as (H1 & _ & _ & H4 & H5).
  destruct (clamp_range 0.05 0 5e3 H) as (_ & H2 & _).
  destruct (clamp_range (-2) 0 5e3 H) as (_ & _ & H3 & _).
  split; [exact H1 |]. split; [apply H2; lra |]. split; [apply H3; lra |].
  split; [apply H4; lra | exact H5].
Defined.

Lemma clamp_nonneg (v hi : R) : 0 <= hi -> 0 <= clamp v 0 hi.
Proof.
  intros H. unfold clamp. apply Rmax_l.
Qed.

Lemma isActive_true (L : Loan) : isActive L = true <-> 1e-6 < principal L.
Proof.
  unfold isActive. destruct (Rle_dec (principal L) 1e-6); split; intros;
    (discriminate || lra || reflexivity).
Qed.

Lemma isActive_false (L : Loan) : isActive L = false <-> principal L <= 1e-6.
Proof.
  unfold isActive. destruct (Rle_dec (principal L) 1e-6); split; intros;
    (discriminate || lra || reflexivity).
Qed.

Lemma Sound_inflationAdj (L : Loan) (inflationRate : R) :
  Sound L -> inflationAdj L inflationRate = 0.
Proof.
  intros (_ & _ & _ & _ & [Hv | Hs]); unfold inflationAdj.
  - rewrite Hv. reflexivity.
  - rewrite Hs. destruct (variableRate L); ring.
Qed.

(** The weighted sum before the boost, for a sound loan that is not
    settled: a non-negative part plus a positive multiple of the urgency. *)
Lemma computePriority_shape (L : Loan) (inflationRate : R) :
  1e-6 < principal L -> Sound L ->
  exists a b, 0 <= a /\ 5000 <= b
    /\ forall d,
        computePriority (set_daysUntilDue L d) inflationRate
        = if (d <=? 5)%Z then (a + b * computeUrgency d) * 1.25
          else a + b * computeUrgency d.
Proof.
  intros Hact HS.
  pose proof (Sound_inflationAdj L inflationRate HS) as Hinf.
  destruct HS as (Hp & Hr & Hf & Hc & _).
  exists ((annualRate L / 100) * (principal L / 1000) * 1.5
          + creditFactor L * 100 * 0.8),
         (clamp (lateFee L / Rmax 1 (principal L)) 0 5e3 * 10000 * 0.8 + 5000).
  pose proof (clamp_nonneg (lateFee L / Rmax 1 (principal L)) 5e3 ltac:(lra)).
  split; [| split; [lra |]].
  - assert (0 <= annualRate L / 100 * (principal L / 1000)) by nra. lra.
  - intros d. rewrite computePriority_active by exact Hact.
    unfold inflationAdj in *. unfold set_daysUntilDue.
    cbn [principal annualRate daysUntilDue lateFee creditFactor variableRate
         inflationSensitivity] in *.
    cbv zeta. rewrite Hinf. destruct (d <=? 5)%Z; ring.
Qed.

Lemma set_daysUntilDue_same (L : Loan) :
  set_daysUntilDue L (daysUntilDue L) = L.
Proof. destruct L. reflexivity. Qed.

Lemma computePriority_active_pos (L : Loan) (inflationRate : R) :
  1e-6 < principal L -> Sound L -> 0 < computePriority L inflationRate.
Proof.
  intros Hact HS.
  destruct (computePriority_shape L inflationRate Hact HS)
    as (a & b & Ha & Hb & E).
  specialize (E (daysUntilDue L)). rewrite set_daysUntilDue_same in E.
  rewrite E. pose proof (computeUrgency_pos (daysUntilDue L)).
  assert (0 < a + b * computeUrgency (daysUntilDue L)) by nra.
  destruct (daysUntilDue L <=? 5)%Z; lra.
Qed.

(** X2.  A sound loan that is not settled has a positive score, so it scores
    above every settled loan, whatever the settled loan's attributes and
    whatever the two inflation rates. *)
Theorem active_outranks_settled (L L' : Loan) (r r' : R) :
  1e-6 < principal L -> Sound L -> principal L' <= 1e-6 ->
  0 < computePriority L r /\ computePriority L' r' < computePriority L r.
Proof.
  intros Hact HS Hset.
  pose proof (computePriority_active_pos L r Hact HS).
  rewrite (computePriority_settled L' r' Hset). split; lra.
Qed.

Lemma computeUrgency_antitone (d1 d2 : Z) :
  (d1 <= d2)%Z -> computeUrgency d2 <= computeUrgency d1.
Proof.
  intros H. destruct (Z.eq_dec d1 d2) as [-> | Hne]; [lra |].
  destruct (Z_le_gt_dec d1 0) as [H1 | H1].
  - rewrite (computeUrgency_overdue d1 H1). apply computeUrgency_le_1.
  - apply Rlt_le, computeUrgency_decreasing; lia.
Qed.

Lemma computePriority_days_antitone (L : Loan) (inflationRate : R) (d1 d2 : Z) :
  1e-6 < principal L -> Sound L -> (d1 <= d2)%Z ->
  computePriority (set_daysUntilDue L d2) inflationRate
  <= computePriority (set_daysUntilDue L d1) inflationRate.
Proof.
  intros Hact HS Hd.
  destruct (computePriority_shape L inflationRate Hact HS)
    as (a & b & Ha & Hb & E).
  rewrite !E.
  pose proof (computeUrgency_antitone d1 d2 Hd) as Hu.
  pose proof (computeUrgency_pos d2) as Hp2.
  assert (a + b * computeUrgency d2 <= a + b * computeUrgency d1) by nra.
  assert (0 < a + b * computeUrgency d2) by nra.
  destruct (Z.leb_spec d1 5), (Z.leb_spec d2 5); try lia; lra.
Qed.

Lemma active_outranks_settled_witness :
  0 < computePriority loanA 0.05
  /\ computePriority loanPaid 0.9 < computePriority loanA 0.05.
Proof.
  apply (active_outranks_settled loanA loanPaid 0.05 0.9).
  - cbn [principal loanA Loan_ctor]. lra.
  - unfold Sound.
    cbn [principal annualRate lateFee creditFactor variableRate loanA Loan_ctor].
    repeat split; try lra; left; reflexivity.
  - cbn [principal loanPaid Loan_ctor]. lra.
Defined.

(** X3.  For a sound loan that is not settled, with everything else fixed, a
    nearer due date never gives a lower score; and once the loan is overdue
    the score no longer depends on how far overdue it is. *)
Theorem score_rises_as_due_date_nears (L : Loan) (inflationRate : R) (d1 d2 : Z) :
  1e-6 < principal L -> Sound L -> (d1 <= d2)%Z ->
  computePriority (set_daysUntilDue L d2) inflationRate
  <= computePriority (set_daysUntilDue L d1) inflationRate
  /\ ((d2 <= 0)%Z ->
      computePriority (set_daysUntilDue L d2) inflationRate
      = computePriority (set_daysUntilDue L d1) inflationRate).
Proof.
  intros Hact HS Hd.
  split; [apply computePriority_days_antitone; assumption |].
  intros H2.
  rewrite !computePriority_active by exact Hact.
  unfold inflationAdj, set_daysUntilDue.
  cbn [principal annualRate daysUntilDue lateFee creditFactor variableRate
       inflationSensitivity].
  rewrite (computeUrgency_overdue d1) by lia.
  rewrite (computeUrgency_overdue d2) by lia.
  destruct (Z.leb_spec d1 5), (Z.leb_spec d2 5); try lia. reflexivity.
Qed.

Lemma score_rises_as_due_date_nears_witness :
  computePriority (set_daysUntilDue loanB 60) 0.05
  <= computePriority (set_daysUntilDue loanB 3) 0.05
  /\ computePriority (set_daysUntilDue loanB 0) 0.05
     = computePriority (set_daysUntilDue loanB (-40)) 0.05.
Proof.
  assert (Hact : 1e-6 < principal loanB) by (cbn [principal loanB Loan_ctor]; lra).
  assert (HS : Sound loanB).
  { unfold Sound.
    cbn [principal annualRate lateFee creditFactor variableRate loanB Loan_ctor].
    repeat split; try lra; left; reflexivity. }
  destruct (score_rises_as_due_date_nears loanB 0.05 3 60 Hact HS ltac:(lia))
    as [Hle _].
  destruct (score_rises_as_due_date_nears loanB 0.05 (-40) 0 Hact HS ltac:(lia))
    as [_ Heq].
  split; [exact Hle | apply Heq; lia].
Defined.

Section TimeFacts.

Context {Q : PriorityQueue}.

(** X16.  When days pass ([days > 0], an [int] value) and no [int]
    subtraction overflows, no sound loan that is not settled ends with a
    lower score than it had. *)
Theorem simulateDays_forward_raises_scores (s : Scheduler) (days : Z) :
  (0 < days)%Z -> int_range days ->
  Forall (fun L => int_range (daysUntilDue L - days)) (loans s) ->
  Forall2 (fun L L' =>
             1e-6 < principal L -> Sound L ->
             computePriority L (inflationRate s)
             <= computePriority L' (inflationRate (fst (simulateDays s days))))
          (loans s) (loans (fst (simulateDays s days))).
Proof.
  intros Hd _ Hfit.
  rewrite (simulateDays_loans_exact s days ltac:(lia) Hfit).
  destruct (simulateDays_loans s days ltac:(lia)) as [_ ->]. clear Hfit.
  induction (loans s) as [| L ls IH]; simpl; [constructor |].
  constructor; [| exact IH]. intros Hact HS.
  rewrite <- (set_daysUntilDue_same L) at 1.
  apply computePriority_days_antitone; [assumption | assumption | lia].
Qed.

Lemma set_daysUntilDue_twice (L : Loan) (d1 d2 : Z) :
  set_daysUntilDue (set_daysUntilDue L d1) d2 = set_daysUntilDue L d2.
Proof. reflexivity. Qed.

(** X15.  Two time steps add up as long as no [int] subtraction overflows:
    after [simulateDays d1] and then [simulateDays d2] (both non-zero
    [int] values) every loan's [daysUntilDue] is lower by [d1 + d2] and
    nothing else in the loans changed; stepping back by the same number of
    days restores the loans exactly. *)
Theorem simulateDays_compose (s : Scheduler) (d1 d2 : Z) :
  d1 <> 0%Z -> d2 <> 0%Z -> int_range d1 -> int_range d2 ->
  Forall (fun L => int_range (daysUntilDue L - d1)
                   /\ int_range (daysUntilDue L - d1 - d2)) (loans s) ->
  loans (fst (simulateDays (fst (simulateDays s d1)) d2))
  = map (fun L => set_daysUntilDue L (daysUntilDue L - (d1 + d2))) (loans s)
  /\ (d2 = (- d1)%Z ->
      loans (fst (simulateDays (fst (simulateDays s d1)) d2)) = loans s).
Proof.
  intros H1 H2 _ _ Hfit.
  assert (E1 : loans (fst (simulateDays s d1))
               = map (fun L => set_daysUntilDue L (daysUntilDue L - d1)) (loans s)).
  { apply simulateDays_loans_exact; [exact H1 |].
    eapply Forall_impl; [| exact Hfit]. cbv beta. tauto. }
  assert (E : loans (fst (simulateDays (fst (simulateDays s d1)) d2))
              = map (fun L => set_daysUntilDue L (daysUntilDue L - (d1 + d2)))
                    (loans s)).
  { rewrite simulateDays_loans_exact; [| exact H2 |].
    - rewrite E1, map_map. apply map_ext. intros L.
      rewrite set_daysUntilDue_twice. cbn [daysUntilDue set_daysUntilDue].
      f_equal. lia.
    - rewrite E1, Forall_map.
      eapply Forall_impl; [| exact Hfit]. cbv beta.
      intros L [_ HL]. exact HL. }
  split; [exact E |].
  intros ->. rewrite E. rewrite <- (map_id (loans s)) at 2.
  apply map_ext. intros L.
  replace (daysUntilDue L - (d1 + - d1))%Z with (daysUntilDue L) by lia.
  apply set_daysUntilDue_same.
Qed.

End TimeFacts.

Lemma simulateDays_forward_raises_scores_witness :
  Forall2 (fun L L' =>
             1e-6 < principal L -> Sound L ->
             computePriority L (inflationRate sessionAB)
             <= computePriority L' (inflationRate (fst (simulateDays sessionAB 2))))
          (loans sessionAB) (loans (fst (simulateDays sessionAB 2))).
Proof.
  apply (simulateDays_forward_raises_scores sessionAB 2);
    [lia | split; cbn; discriminate |].
  repeat constructor; cbn; discriminate.
Defined.

Lemma simulateDays_compose_witness :
  loans (fst (simulateDays (fst (simulateDays sessionAB 10)) (-10)))
  = map (fun L => set_daysUntilDue L (daysUntilDue L - (10 + -10)))
        (loans sessionAB)
  /\ loans (fst (simulateDays (fst (simulateDays sessionAB 10)) (-10)))
     = loans sessionAB.
Proof.
  destruct (simulateDays_compose sessionAB 10 (-10)) as [H1 H2];
    try discriminate.
  - split; cbn; discriminate.
  - split; cbn; discriminate.
  - repeat constructor; cbn; discriminate.
  - split; [exact H1 | apply H2; reflexivity].
Defined.

(** * The ranking: what the queue holds and what is displayed *)

Lemma filter_keeps_Permutation {X : Type} (keep : X -> bool) :
  forall xs ys : list X,
    Permutation xs ys -> Permutation (filter keep xs) (filter keep ys).
Proof.
  intros xs ys Hperm.
  induction Hperm as [| x xs ys _ IH | x y xs | xs ys zs _ IH1 _ IH2]; simpl.
  - constructor.
  - destruct (keep x); [constructor |]; exact IH.
  - destruct (keep x), (keep y); try reflexivity. apply perm_swap.
  - etransitivity; eassumption.
Qed.

Lemma StronglySorted_filter {A : Type} (R : A -> A -> Prop) (f : A -> bool)
    (l : list A) :
  StronglySorted R l -> StronglySorted R (filter f l).
Proof.
  induction 1 as [| a l _ IH Hall]; simpl; [constructor |].
  destruct (f a); [| exact IH]. constructor; [exact IH |].
  rewrite Forall_forall in *. intros x Hx. apply Hall.
  apply filter_In in Hx. tauto.
Qed.

Lemma StronglySorted_map_fst (l : list Entry) :
  StronglySorted (fun x y => fst y <= fst x) l -> descending (map fst l).
Proof.
  unfold descending. induction 1 as [| a l _ IH Hall]; simpl; constructor.
  - exact IH.
  - rewrite Forall_forall in *. intros x Hx. apply in_map_iff in Hx.
    destruct Hx as [e [<- He]]. apply Hall, He.
Qed.

Lemma scoresOf_rows (l : list Entry) :
  scoresOf (map (fun e => rowOf (fst e) (snd e)) l) = map fst l.
Proof. induction l as [| e l IH]; simpl; [reflexivity | now rewrite IH]. Qed.

Lemma filter_entries (rate : R) (ls : list Loan) :
  map (fun e => rowOf (fst e) (snd e))
      (filter (fun e => isActive (snd e)) (map (entryOf rate) ls))
  = activeRows rate ls.
Proof.
  unfold activeRows. induction ls as [| L ls IH]; simpl; [reflexivity |].
  destruct (isActive L); simpl; now rewrite IH.
Qed.

Section RankingFacts.

Context {Q : PriorityQueue} (HQ : PriorityQueueLaws Q).

(** The loop of [displayPriorities] takes the entries out in descending
    score order and writes the rows of those that are not settled. *)
Lemma displayLoop_drain (fuel : nat) :
  forall temp anyShown,
    (List.length (pq_items temp) <= fuel)%nat ->
    exists d,
      Permutation d (pq_items temp)
      /\ StronglySorted (fun x y => fst y <= fst x) d
      /\ snd (displayLoop fuel temp anyShown)
         = map (fun e => rowOf (fst e) (snd e))
               (filter (fun e => isActive (snd e)) d).
Proof.
  induction fuel as [| f IH]; intros temp b Hlen.
  - exists []. destruct (pq_items temp); [| simpl in Hlen; lia].
    repeat split; constructor.
  - simpl. destruct (pq_empty temp) eqn:Ee.
    + apply (pq_empty_spec Q HQ) in Ee. exists []. rewrite Ee.
      repeat split; constructor.
    + apply (pq_empty_false HQ) in Ee.
      destruct (pq_top_pop Q HQ temp Ee) as [[sc L] [Ht [Hmax Hp]]].
      rewrite Ht.
      assert (Hlen' : (List.length (pq_items (pq_pop temp)) <= f)%nat).
      { rewrite (pq_pop_length HQ temp Ee) in Hlen. lia. }
      assert (Hsorted : forall d, Permutation d (pq_items (pq_pop temp)) ->
                StronglySorted (fun x y => fst y <= fst x) d ->
                Permutation ((sc, L) :: d) (pq_items temp)
                /\ StronglySorted (fun x y => fst y <= fst x) ((sc, L) :: d)).
      { intros d Hd Hs. split.
        - rewrite Hp. constructor. exact Hd.
        - constructor; [exact Hs |].
          rewrite Forall_forall in *. intros x Hx. apply Hmax.
          eapply Permutation_in; [symmetry; exact Hp |]. right.
          eapply Permutation_in; [exact Hd | exact Hx]. }
      destruct (Rle_dec (principal L) 1e-6) as [Hs | Hs].
      * destruct (IH (pq_pop temp) b Hlen') as (d & Hd & Hsd & E).
        exists ((sc, L) :: d). destruct (Hsorted d Hd Hsd) as [H1 H2].
        split; [exact H1 |]. split; [exact H2 |].
        rewrite E. cbn [filter snd].
        rewrite (proj2 (isActive_false L) Hs). reflexivity.
      * destruct (IH (pq_pop temp) true Hlen') as (d & Hd & Hsd & E).
        exists ((sc, L) :: d). destruct (Hsorted d Hd Hsd) as [H1 H2].
        split; [exact H1 |]. split; [exact H2 |].
        destruct (displayLoop f (pq_pop temp) true) as [shown out].
        cbn [snd] in *. rewrite E. cbn [filter snd].
        rewrite (proj2 (isActive_true L) ltac:(lra)). reflexivity.
Qed.

Lemma display_rows_ranked (s : Scheduler) :
  loans s <> [] ->
  exists rows,
    snd (displayPriorities s)
    = PrioritiesHeader :: rows
        ++ match rows with [] => [AllLoansRepaid] | _ :: _ => [] end
    /\ Permutation rows (activeRows (inflationRate s) (loans s))
    /\ descending (scoresOf rows).
Proof.
  intros Hne. unfold displayPriorities.
  destruct (loans s) as [| L0 ls] eqn:E; [congruence |].
  destruct (displayLoop_drain (pq_size (pq (rebuildHeap s)))
              (pq (rebuildHeap s)) false
              ltac:(rewrite (pq_size_spec Q HQ); lia))
    as (d & Hd & Hsd & Hrows).
  pose proof (displayLoop_shown (pq_size (pq (rebuildHeap s)))
                (pq (rebuildHeap s)) false) as Hshown.
  destruct (displayLoop _ _ _) as [shown rows]. cbn [fst snd] in *.
  exists rows. split; [| split].
  - subst shown. destruct rows; reflexivity.
  - rewrite Hrows, <- E, <- filter_entries.
    apply Permutation_map, filter_keeps_Permutation.
    rewrite Hd. exact (rebuildHeap_items HQ s).
  - rewrite Hrows, scoresOf_rows.
    apply StronglySorted_map_fst, StronglySorted_filter, Hsd.
Qed.


(** X5.  [rebuildHeap] forgets whatever the queue held: afterwards the queue
    holds one entry per loan, the loan with its current score, and nothing
    else; rebuilding again gives the same content. *)
Theorem rebuildHeap_exact (s : Scheduler) :
  Permutation (pq_items (pq (rebuildHeap s)))
              (map (entryOf (inflationRate s)) (loans s))
  /\ pq_size (pq (rebuildHeap s)) = List.length (loans s)
  /\ loans (rebuildHeap s) = loans s
  /\ Permutation (pq_items (pq (rebuildHeap (rebuildHeap s))))
                 (pq_items (pq (rebuildHeap s))).
Proof.
  split; [exact (rebuildHeap_items HQ s) |].
  split; [apply (rebuildHeap_size HQ) |]. split; [reflexivity |].
  rewrite (rebuildHeap_items HQ (rebuildHeap s)).
  symmetry. exact (rebuildHeap_items HQ s).
Qed.

(** X7.  [addLoan] appends the loan, and the next [displayPriorities] shows the
    rows the collection had plus, if the new loan is not settled, its row;
    a loan added already settled adds no row. *)
Theorem addLoan_then_display (s : Scheduler) (L : Loan) :
  loans (addLoan s L) = loans s ++ [L]
  /\ exists rows,
       snd (displayPriorities (addLoan s L))
       = PrioritiesHeader :: rows
           ++ match rows with [] => [AllLoansRepaid] | _ :: _ => [] end
       /\ Permutation rows
            (activeRows (inflationRate s) (loans s)
             ++ (if isActive L
                 then [rowOf (computePriority L (inflationRate s)) L]
                 else [])).
Proof.
  split; [reflexivity |].
  destruct (display_rows_ranked (addLoan s L)) as (rows & Hout & Hperm & _).
  { cbn [addLoan loans]. destruct (loans s); discriminate. }
  exists rows. split; [exact Hout |].
  rewrite Hperm. cbn [addLoan loans inflationRate].
  unfold activeRows. rewrite filter_app, map_app. cbn [filter].
  destruct (isActive L); reflexivity.
Qed.

End RankingFacts.


Lemma rebuildHeap_exact_witness :
  Permutation (pq_items (pq (rebuildHeap sessionAB)))
              (map (entryOf (inflationRate sessionAB)) (loans sessionAB))
  /\ pq_size (pq (rebuildHeap sessionAB)) = List.length (loans sessionAB)
  /\ loans (rebuildHeap sessionAB) = loans sessionAB
  /\ Permutation (pq_items (pq (rebuildHeap (rebuildHeap sessionAB))))
                 (pq_items (pq (rebuildHeap sessionAB))).
Proof.
  exact (rebuildHeap_exact ListPQ_laws sessionAB).
Defined.

Lemma addLoan_then_display_witness :
  loans (addLoan sessionAB loanPaid) = loans sessionAB ++ [loanPaid]
  /\ exists rows,
       snd (displayPriorities (addLoan sessionAB loanPaid))
       = PrioritiesHeader :: rows
           ++ match rows with [] => [AllLoansRepaid] | _ :: _ => [] end
       /\ Permutation rows
            (activeRows (inflationRate sessionAB) (loans sessionAB)
             ++ (if isActive loanPaid
                 then [rowOf (computePriority loanPaid (inflationRate sessionAB))
                             loanPaid]
                 else [])).
Proof.
  exact (addLoan_then_display ListPQ_laws sessionAB loanPaid).
Defined.

(** * The allocation loop: which loan is paid, and a payment that returns *)

Section PayingFacts.

Context {Q : PriorityQueue} (HQ : PriorityQueueLaws Q).


Lemma allocBody_top (st : AllocState) (L : Loan) :
  pq_top (pq (al_sched st))
  = Some (entryOf (inflationRate (al_sched st)) L) ->
  allocBody st =
  let pay := Rmin (al_amount st) (principal L) in
  mkAllocState
    (rebuildHeap
       (mkScheduler
          (updateMaster (loans (al_sched st)) (id L) (principal L - pay))
          (inflationRate (al_sched st))
          (pq_pop (pq (al_sched st)))))
    (al_amount st - pay)
    (al_trace st ++ [Paid pay (name L) (principal L - pay)]).
Proof.
  intros Ht. unfold allocBody. unfold entryOf in Ht. rewrite Ht. reflexivity.
Qed.







End PayingFacts.




Lemma Forall2_chain {A : Type} (R1 R2 R3 : A -> A -> Prop) (l1 l2 l3 : list A) :
  (forall a b c, R1 a b -> R2 b c -> R3 a c) ->
  Forall2 R1 l1 l2 -> Forall2 R2 l2 l3 -> Forall2 R3 l1 l3.
Proof.
  intros Hc H12. revert l3.
  induction H12 as [| a b l1 l2 Hab _ IH]; intros l3 H23;
    inversion H23; subst; constructor; eauto.
Qed.

Lemma Forall2_same {A : Type} (R1 : A -> A -> Prop) (l : list A) :
  (forall a, In a l -> R1 a a) -> Forall2 R1 l l.
Proof.
  induction l as [| a l IH]; intros H; constructor.
  - apply H. left. reflexivity.
  - apply IH. intros x Hx. apply H. right. exact Hx.
Qed.

Lemma sameButPrincipal_refl (L : Loan) : sameButPrincipal L L.
Proof. unfold sameButPrincipal. tauto. Qed.

Lemma sameButPrincipal_trans (L1 L2 L3 : Loan) :
  sameButPrincipal L1 L2 -> sameButPrincipal L2 L3 -> sameButPrincipal L1 L3.
Proof.
  unfold sameButPrincipal.
  intros (A1 & A2 & A3 & A4 & A5 & A6 & A7 & A8)
         (B1 & B2 & B3 & B4 & B5 & B6 & B7 & B8).
  repeat split; congruence.
Qed.

(** With distinct ids the write-back changes the popped loan and no other:
    pointwise, a loan keeps its principal or it is [L] and now owes [p]. *)
Lemma updateMaster_pointwise (ls : list Loan) (L : Loan) (p : R) :
  NoDup (map id ls) -> In L ls ->
  Forall2 (fun X X' => sameButPrincipal X X'
                       /\ (principal X' = principal X
                           \/ (X = L /\ principal X' = p)))
          ls (updateMaster ls (id L) p).
Proof.
  induction ls as [| L0 ls IH]; intros Hnd Hin; [contradiction |].
  simpl in Hnd. inversion Hnd as [| i l Hnotin Hnd']; subst.
  simpl. destruct (Z.eqb_spec (id L0) (id L)) as [E | E].
  - destruct Hin as [-> | Hin].
    + constructor.
      * split; [unfold sameButPrincipal; simpl; tauto | right; auto].
      * apply Forall2_same. intros X _.
        split; [apply sameButPrincipal_refl | left; reflexivity].
    + exfalso. apply Hnotin. rewrite E. apply in_map, Hin.
  - destruct Hin as [-> | Hin]; [congruence |].
    constructor; [| exact (IH Hnd' Hin)].
    split; [apply sameButPrincipal_refl | left; reflexivity].
Qed.

Section TraceFacts.

Context {Q : PriorityQueue} (HQ : PriorityQueueLaws Q).

Lemma allocBody_trace_paid (st : AllocState) :
  Forall (fun e => exists p nm r, e = Paid p nm r) (al_trace st) ->
  Forall (fun e => exists p nm r, e = Paid p nm r) (al_trace (allocBody st)).
Proof.
  intros H. unfold allocBody.
  destruct (pq_top (pq (al_sched st))) as [[sc L] |]; [| exact H].
  cbn [al_trace]. apply Forall_app. split; [exact H |].
  repeat constructor. eauto.
Qed.

End TraceFacts.

Section FrameFacts.

Context {Q : PriorityQueue} (HQ : PriorityQueueLaws Q).

Lemma allocCond_nonempty (st : AllocState) :
  Rebuilt (al_sched st) -> allocCond st = true -> loans (al_sched st) <> [].
Proof.
  intros Hr Hc E. unfold allocCond in Hc.
  destruct (Rlt_dec 0 (al_amount st)); [| discriminate].
  unfold Rebuilt in Hr. rewrite E in Hr. simpl in Hr.
  apply Permutation_sym, Permutation_nil in Hr.
  apply (pq_empty_spec Q HQ) in Hr. rewrite Hr in Hc. discriminate.
Qed.

Lemma Lowered_step (ls0 : list Loan) (st : AllocState) :
  Lowered ls0 st -> allocCond st = true -> Lowered ls0 (allocBody st).
Proof.
  intros (Hr & Hnd & Ha0 & Hrel) Hcond.
  pose proof (allocCond_nonempty st Hr Hcond) as Hne.
  destruct (Rebuilt_top HQ _ Hr Hne) as [_ [L [Ht HL]]].
  assert (HpL : 0 <= principal L).
  { clear -Hrel HL. induction Hrel as [| X X' l l' [_ [H0 _]] _ IH];
      [contradiction |].
    destruct HL as [<- | HL]; [exact H0 | exact (IH HL)]. }
  rewrite (allocBody_top st L Ht). cbv zeta.
  pose proof (Rmin_r (al_amount st) (principal L)) as Hpay_r.
  assert (Hpay0 : 0 <= Rmin (al_amount st) (principal L))
    by (apply Rmin_glb; assumption).
  unfold Lowered. cbn [al_sched al_amount rebuildHeap loans].
  split; [apply (rebuildHeap_Rebuilt HQ) |].
  split; [rewrite updateMaster_ids; exact Hnd |].
  split; [pose proof (Rmin_l (al_amount st) (principal L)); lra |].
  refine (Forall2_chain _ _ _ _ _ _ _ Hrel
            (updateMaster_pointwise _ L _ Hnd HL)).
  intros a b b' [Hab [Hb0 Hba]] [Hbb' Hp].
  split; [exact (sameButPrincipal_trans _ _ _ Hab Hbb') |].
  destruct Hp as [-> | [-> ->]]; lra.
Qed.

Lemma Lowered_start (s : Scheduler) (amount : R) :
  NoDup (map id (loans s)) -> Forall (fun L => 0 <= principal L) (loans s) ->
  0 <= amount ->
  Lowered (loans s) (mkAllocState (rebuildHeap s) amount []).
Proof.
  intros Hnd Hpos Ha. unfold Lowered. cbn [al_sched al_amount rebuildHeap loans].
  split; [apply (rebuildHeap_Rebuilt HQ) |]. repeat split; try assumption.
  apply Forall2_same. intros L HL. rewrite Forall_forall in Hpos.
  pose proof (Hpos L HL). split; [apply sameButPrincipal_refl | lra].
Qed.

(** X10.  With distinct ids and nothing owed negative, [allocatePayment] touches
    principals only: after every turn, and in the scheduler returned, each
    loan is the loan it was but for [principal], which has not grown and is
    not negative. *)
Theorem allocatePayment_only_lowers_principals (s : Scheduler) (amount : R) :
  NoDup (map id (loans s)) -> Forall (fun L => 0 <= principal L) (loans s) ->
  (forall n,
      0 <= amount ->
      Forall2 (fun X X' => sameButPrincipal X X'
                           /\ 0 <= principal X' <= principal X)
              (loans s)
              (loans (al_sched
                        (allocIter n (mkAllocState (rebuildHeap s) amount [])))))
  /\ (forall fuel s' out,
         allocatePayment fuel s amount = Some (s', out) ->
         Forall2 (fun X X' => sameButPrincipal X X'
                              /\ 0 <= principal X' <= principal X)
                 (loans s) (loans s')).
Proof.
  intros Hnd Hpos.
  assert (Hrefl : Forall2 (fun X X' => sameButPrincipal X X'
                                       /\ 0 <= principal X' <= principal X)
                          (loans s) (loans s)).
  { apply Forall2_same. intros L HL. rewrite Forall_forall in Hpos.
    pose proof (Hpos L HL). split; [apply sameButPrincipal_refl | lra]. }
  split.
  - intros n Ha.
    assert (H : Lowered (loans s)
                  (allocIter n (mkAllocState (rebuildHeap s) amount []))).
    { apply (allocIter_invariant _ (Lowered_step (loans s))).
      apply Lowered_start; assumption. }
    destruct H as (_ & _ & _ & Hrel). exact Hrel.
  - intros fuel s' out. unfold allocatePayment.
    destruct (loans s) as [| L0 ls] eqn:E.
    + intros H. injection H as <- _. rewrite E. constructor.
    + destruct (Rle_dec amount 0).
      * intros H. injection H as <- _. rewrite E. exact Hrefl.
      * destruct (allocLoop fuel _) as [st |] eqn:El; [| discriminate].
        assert (H0 : Lowered (L0 :: ls)
                       (mkAllocState (rebuildHeap s) amount [])).
        { rewrite <- E. apply Lowered_start; [| | lra]; rewrite E; assumption. }
        destruct (allocLoop_invariant _ (Lowered_step (L0 :: ls))
                    fuel _ st H0 El) as [(_ & _ & _ & Hrel) _].
        pose proof (displayPriorities_loans (al_sched st)) as [Hl _].
        destruct (displayPriorities (al_sched st)) as [s2 shown].
        intros H. injection H as <- _. simpl in Hl. rewrite Hl. exact Hrel.
Qed.

(** X14.  The three operations on a scheduler without loans: each says so and
    leaves the collection empty; [allocatePayment] does not look at the
    amount, and [simulateDays] still announces the days. *)
Theorem empty_collection_reports (s : Scheduler) :
  loans s = [] ->
  displayPriorities s = (s, [NoLoansToDisplay])
  /\ (forall fuel amount,
         allocatePayment fuel s amount = Some (s, [NoLoansForRepayment]))
  /\ (forall days, days <> 0%Z ->
         snd (simulateDays s days) = [SimulatedDays days; NoLoansToDisplay]
         /\ loans (fst (simulateDays s days)) = []).
Proof.
  intros E. split; [unfold displayPriorities; rewrite E; reflexivity |].
  split; [intros; unfold allocatePayment; rewrite E; reflexivity |].
  intros days Hd. unfold simulateDays.
  destruct (Z.eqb_spec days 0); [contradiction |].
  rewrite E. cbn [map]. unfold displayPriorities.
  cbn [rebuildHeap loans]. split; reflexivity.
Qed.

End FrameFacts.

Lemma allocatePayment_only_lowers_principals_witness :
  (forall n,
      0 <= 3000 ->
      Forall2 (fun X X' => sameButPrincipal X X'
                           /\ 0 <= principal X' <= principal X)
              (loans sessionAB)
              (loans (al_sched
                        (allocIter n (mkAllocState (rebuildHeap sessionAB) 3000 [])))))
  /\ (forall fuel s' out,
         allocatePayment fuel sessionAB 3000 = Some (s', out) ->
         Forall2 (fun X X' => sameButPrincipal X X'
                              /\ 0 <= principal X' <= principal X)
                 (loans sessionAB) (loans s')).
Proof.
  apply (allocatePayment_only_lowers_principals ListPQ_laws sessionAB 3000).
  - cbn. repeat constructor; cbn; intuition discriminate.
  - repeat constructor; cbn [principal loanA loanB Loan_ctor]; lra.
Defined.

Lemma empty_collection_reports_witness :
  displayPriorities (Q:=ListPQ) (newScheduler None)
  = (newScheduler None, [NoLoansToDisplay])
  /\ (forall fuel amount,
         allocatePayment (Q:=ListPQ) fuel (newScheduler None) amount
         = Some (newScheduler None, [NoLoansForRepayment]))
  /\ (forall days, days <> 0%Z ->
         snd (simulateDays (Q:=ListPQ) (newScheduler None) days)
         = [SimulatedDays days; NoLoansToDisplay]
         /\ loans (fst (simulateDays (Q:=ListPQ) (newScheduler None) days)) = []).
Proof.
  apply (empty_collection_reports (Q:=ListPQ) (newScheduler None)). reflexivity.
Defined.

Lemma allocatePayment_returned_no_leftover_witness :
  exists s' out,
    allocatePayment (Q:=ListPQ) 1 (addLoan (newScheduler None) loanCar) 60
    = Some (s', out)
    /\ forall a, ~ In (LeftoverCash a) out.
Proof.
  destruct (allocatePayment_single_partial ListPQ_laws loanCar None 60)
    as (s' & shown & E & _).
  { cbn [principal loanCar Loan_ctor]. lra. }
  assert (Hne : loans (Q:=ListPQ) (addLoan (newScheduler None) loanCar) <> [])
    by discriminate.
  pose proof (allocatePayment_returned_no_leftover ListPQ_laws
                1 (addLoan (newScheduler None) loanCar) s' 60 _ Hne E) as H.
  eexists _, _. split; [exact E | exact H].
Defined.

(** * The session: ids and inflation rate *)

Section IdFacts.

Context {Q : PriorityQueue}.

Lemma allocBody_ids_rate (st : AllocState) :
  map id (loans (al_sched (allocBody st))) = map id (loans (al_sched st))
  /\ inflationRate (al_sched (allocBody st)) = inflationRate (al_sched st).
Proof.
  unfold allocBody. destruct (pq_top (pq (al_sched st))) as [[sc L] |];
    [| auto].
  cbn [al_sched rebuildHeap loans inflationRate].
  rewrite updateMaster_ids. auto.
Qed.

Lemma shellStep_ids (fuel : nat) (sh sh' : Shell) (c : Command) :
  shellStep fuel sh c = Some sh' ->
  inflationRate (sh_scheduler sh') = inflationRate (sh_scheduler sh)
  /\ ((map id (loans (sh_scheduler sh'))
       = map id (loans (sh_scheduler sh)) ++ [sh_id sh]
       /\ sh_id sh' = (sh_id sh + 1)%Z)
      \/ (map id (loans (sh_scheduler sh')) = map id (loans (sh_scheduler sh))
          /\ sh_id sh' = sh_id sh)).
Proof.
  destruct c; simpl.
  - intros E. injection E as <-. cbn [sh_scheduler sh_id addLoan loans
                                       inflationRate].
    split; [reflexivity | left]. rewrite map_app. auto.
  - intros E. injection E as <-. cbn [sh_scheduler sh_id].
    destruct (displayPriorities_loans (sh_scheduler sh)) as [-> ->]. auto.
  - unfold allocatePayment.
    destruct (loans (sh_scheduler sh)) as [| L0 ls] eqn:El.
    + intros E. injection E as <-. cbn [sh_scheduler sh_id]. rewrite El. auto.
    + destruct (Rle_dec amt 0).
      * intros E. injection E as <-. cbn [sh_scheduler sh_id]. rewrite El. auto.
      * destruct (allocLoop fuel _) as [st |] eqn:Ea; [| discriminate].
        assert (Hst : map id (loans (al_sched st)) = map id (L0 :: ls)
                      /\ inflationRate (al_sched st)
                         = inflationRate (sh_scheduler sh)).
        { refine (proj1 (allocLoop_invariant
                     (fun st => map id (loans (al_sched st)) = map id (L0 :: ls)
                                /\ inflationRate (al_sched st)
                                   = inflationRate (sh_scheduler sh))
                     _ fuel _ st _ Ea)).
          - intros st' [H1 H2] _.
            destruct (allocBody_ids_rate st') as [-> ->]. auto.
          - cbn [al_sched rebuildHeap loans inflationRate]. rewrite El. auto. }
        pose proof (displayPriorities_loans (al_sched st)) as [Hl Hr].
        destruct (displayPriorities (al_sched st)) as [s2 shown].
        intros E. injection E as <-. cbn [sh_scheduler sh_id].
        simpl in Hl, Hr. rewrite Hl, Hr. destruct Hst as [-> ->]. auto.
  - intros E. injection E as <-. cbn [sh_scheduler sh_id].
    destruct (Z.eq_dec days 0) as [-> | Hd]; [auto |].
    destruct (simulateDays_loans (sh_scheduler sh) days Hd) as [-> ->].
    rewrite map_map. cbn [id set_daysUntilDue]. auto.
  - intros E. injection E as <-. auto.
Qed.

(** X17.  The shell numbers its loans 1, 2, 3, ... in the order they were added:
    in every state the session reaches the ids are exactly 1..n, so they are
    distinct, the next id is n+1, and the inflation rate is still 0.05. *)
Theorem shell_ids_consecutive (sh : Shell) :
  ShellReach sh ->
  map id (loans (sh_scheduler sh))
  = map Z.of_nat (seq 1 (List.length (loans (sh_scheduler sh))))
  /\ sh_id sh = Z.of_nat (S (List.length (loans (sh_scheduler sh))))
  /\ NoDup (map id (loans (sh_scheduler sh)))
  /\ inflationRate (sh_scheduler sh) = 0.05.
Proof.
  intros Hreach.
  assert (H : map id (loans (sh_scheduler sh))
              = map Z.of_nat (seq 1 (List.length (loans (sh_scheduler sh))))
              /\ sh_id sh = Z.of_nat (S (List.length (loans (sh_scheduler sh))))
              /\ inflationRate (sh_scheduler sh) = 0.05).
  { induction Hreach as [| fuel sh c sh' _ (IH1 & IH2 & IH3) Hstep].
    - repeat split; reflexivity.
    - destruct (shellStep_ids fuel sh sh' c Hstep) as [Hr [[Hi Hn] | [Hi Hn]]].
      + assert (Hlen : List.length (loans (sh_scheduler sh'))
                       = S (List.length (loans (sh_scheduler sh)))).
        { rewrite <- (length_map id (loans (sh_scheduler sh'))), Hi.
          rewrite length_app, length_map. simpl. lia. }
        rewrite Hlen, Hi, Hn, Hr, IH1, IH2, seq_S, map_app.
        split; [reflexivity |]. split; [lia | exact IH3].
      + assert (Hlen : List.length (loans (sh_scheduler sh'))
                       = List.length (loans (sh_scheduler sh))).
        { rewrite <- (length_map id (loans (sh_scheduler sh'))), Hi.
          apply length_map. }
        rewrite Hlen, Hi, Hn, Hr. auto. }
  destruct H as (H1 & H2 & H3). repeat split; try assumption.
  rewrite H1. apply Finite.Injective_map_NoDup; [| apply seq_NoDup].
  intros a b. apply Nat2Z.inj.
Qed.

End IdFacts.

Lemma shell_ids_consecutive_witness :
  map id (loans (sh_scheduler shellOneLoan))
  = map Z.of_nat (seq 1 (List.length (loans (sh_scheduler shellOneLoan))))
  /\ sh_id shellOneLoan
     = Z.of_nat (S (List.length (loans (sh_scheduler shellOneLoan))))
  /\ NoDup (map id (loans (sh_scheduler shellOneLoan)))
  /\ inflationRate (sh_scheduler shellOneLoan) = 0.05.
Proof.
  apply (shell_ids_consecutive shellOneLoan).
  apply (reach_step 0%nat shellStart
           (CmdAddLoan "Home" 250000 9 20 1500 0.7 "y"));
    [apply reach_start | reflexivity].
Defined.

(** * Saturation of the late fee, and the error reports of a payment *)

(** X4.  The late fee counts through [lateFee / max(1, principal)] clamped into
    [[0, 5000]]: for a loan that is not settled, two fees at or above 5000
    times [max(1, principal)] give the same score, and so do two fees at or
    below 0. *)
Theorem lateFee_saturates (L : Loan) (inflationRate f1 f2 : R) :
  1e-6 < principal L ->
  (5000 * Rmax 1 (principal L) <= f1 -> 5000 * Rmax 1 (principal L) <= f2 ->
   computePriority (set_lateFee L f1) inflationRate
   = computePriority (set_lateFee L f2) inflationRate)
  /\ (f1 <= 0 -> f2 <= 0 ->
      computePriority (set_lateFee L f1) inflationRate
      = computePriority (set_lateFee L f2) inflationRate).
Proof.
  intros Hact.
  assert (Hm : 1 <= Rmax 1 (principal L)) by apply Rmax_l.
  assert (Hinv : 0 < / Rmax 1 (principal L))
    by (apply Rinv_0_lt_compat; lra).
  assert (Hhigh : forall f, 5000 * Rmax 1 (principal L) <= f ->
            clamp (f / Rmax 1 (principal L)) 0 5e3 = 5e3).
  { intros f Hf. unfold clamp.
    assert (E1 : Rmax 1 (principal L) * / Rmax 1 (principal L) = 1)
      by (apply Rinv_r; lra).
    rewrite Rmin_right by (unfold Rdiv; nra).
    apply Rmax_right. lra. }
  assert (Hlow : forall f, f <= 0 ->
            clamp (f / Rmax 1 (principal L)) 0 5e3 = 0).
  { intros f Hf. unfold clamp.
    assert (f / Rmax 1 (principal L) <= 0) by (unfold Rdiv; nra).
    rewrite Rmin_left by lra.
    apply Rmax_left. lra. }
  split; intros H1 H2;
    rewrite !computePriority_active by exact Hact;
    unfold inflationAdj, set_lateFee;
    cbn [principal annualRate daysUntilDue lateFee creditFactor variableRate
         inflationSensitivity].
  - rewrite (Hhigh f1 H1), (Hhigh f2 H2). reflexivity.
  - rewrite (Hlow f1 H1), (Hlow f2 H2). reflexivity.
Qed.

Lemma lateFee_saturates_witness :
  computePriority (set_lateFee loanA 50000000) 0.05
  = computePriority (set_lateFee loanA 90000000) 0.05
  /\ computePriority (set_lateFee loanA (-3)) 0.05
     = computePriority (set_lateFee loanA 0) 0.05.
Proof.
  assert (Hact : 1e-6 < principal loanA)
    by (cbn [principal loanA Loan_ctor]; lra).
  assert (Hm : Rmax 1 (principal loanA) = 10000)
    by (cbn [principal loanA Loan_ctor]; apply Rmax_right; lra).
  destruct (lateFee_saturates loanA 0.05 50000000 90000000 Hact) as [Hh _].
  destruct (lateFee_saturates loanA 0.05 (-3) 0 Hact) as [_ Hl].
  split; [apply Hh; rewrite Hm; lra | apply Hl; lra].
Defined.

Section ErrorFacts.

Context {Q : PriorityQueue}.

Lemma displayLoop_lines (fuel : nat) :
  forall temp anyShown,
    Forall displayLine (snd (displayLoop fuel temp anyShown)).
Proof.
  induction fuel as [| f IH]; intros temp b; simpl; [constructor |].
  destruct (pq_empty temp); [constructor |].
  destruct (pq_top temp) as [[score L] |]; [| constructor].
  destruct (Rle_dec (principal L) 1e-6); [apply IH |].
  specialize (IH (pq_pop temp) true).
  destruct (displayLoop f (pq_pop temp) true) as [shown out].
  simpl in *. constructor; [exact I | exact IH].
Qed.

Lemma displayPriorities_lines (s : Scheduler) :
  Forall displayLine (snd (displayPriorities s)).
Proof.
  unfold displayPriorities. destruct (loans s); [repeat constructor |].
  pose proof (displayLoop_lines (pq_size (pq (rebuildHeap s)))
                (pq (rebuildHeap s)) false) as H.
  destruct (displayLoop _ _ _) as [shown rows]. simpl in *.
  constructor; [exact I |]. apply Forall_app. split; [exact H |].
  destruct shown; repeat constructor.
Qed.

(** X13.  The two refusals of [allocatePayment]: a call that returns wrote the
    no-loans line exactly when the collection was empty, and the
    invalid-amount line exactly when the collection was not empty and
    [amount <= 0]; a refused call writes that one line and returns the
    scheduler as it was. *)
Theorem allocatePayment_refusals
    (fuel : nat) (s s' : Scheduler) (amount : R) (out : list Event) :
  allocatePayment fuel s amount = Some (s', out) ->
  (In NoLoansForRepayment out <-> loans s = [])
  /\ (In InvalidPaymentAmount out <-> loans s <> [] /\ amount <= 0)
  /\ (loans s = [] -> s' = s /\ out = [NoLoansForRepayment])
  /\ (loans s <> [] -> amount <= 0 -> s' = s /\ out = [InvalidPaymentAmount]).
Proof.
  unfold allocatePayment.
  destruct (loans s) as [| L0 ls] eqn:E.
  - intros H. injection H as <- <-.
    split; [split; [reflexivity | intros _; left; reflexivity] |].
    split; [split; [intros [H | []]; discriminate | intros [H _]; congruence] |].
    split; [auto | congruence].
  - destruct (Rle_dec amount 0) as [Ha | Ha].
    + intros H. injection H as <- <-.
      split; [split; [intros [H | []]; discriminate | discriminate] |].
      split; [split; [intros _; split; [discriminate | exact Ha]
                     | intros _; left; reflexivity] |].
      split; [discriminate | auto].
    + destruct (allocLoop fuel _) as [st |] eqn:El; [| discriminate].
      assert (Htr : Forall (fun e => exists p nm r, e = Paid p nm r)
                           (al_trace st)).
      { refine (proj1 (allocLoop_invariant
                   (fun st' => Forall (fun e => exists p nm r, e = Paid p nm r)
                                      (al_trace st'))
                   (fun st' H' _ => allocBody_trace_paid st' H')
                   fuel _ st _ El)).
        constructor. }
      pose proof (displayPriorities_lines (al_sched st)) as Hd.
      destruct (displayPriorities (al_sched st)) as [s2 shown].
      intros H. injection H as <- <-. simpl in Hd.
      assert (Hnone : forall e, (e = NoLoansForRepayment \/ e = InvalidPaymentAmount) ->
                ~ In e (AllocatingPayment amount :: al_trace st
                          ++ (if Rlt_dec 0 (al_amount st)
                              then [LeftoverCash (al_amount st)] else [])
                          ++ shown)).
      { intros e He [H | H]; [destruct He; subst; discriminate |].
        apply in_app_or in H. destruct H as [H | H].
        - rewrite Forall_forall in Htr. destruct (Htr _ H) as (p & nm & r & ->).
          destruct He; discriminate.
        - apply in_app_or in H. destruct H as [H | H].
          + destruct (Rlt_dec 0 (al_amount st)); [| contradiction].
            destruct H as [<- | []]. destruct He; discriminate.
          + rewrite Forall_forall in Hd. pose proof (Hd _ H) as Hl.
            destruct He; subst; exact Hl. }
      split; [split; [intros H; exfalso; exact (Hnone _ (or_introl eq_refl) H)
                     | discriminate] |].
      split; [split; [intros H; exfalso; exact (Hnone _ (or_intror eq_refl) H)
                     | intros [_ H]; contradiction] |].
      split; [discriminate | intros _ H; contradiction].
Qed.

End ErrorFacts.

Lemma allocatePayment_refusals_witness :
  (In NoLoansForRepayment [InvalidPaymentAmount] <-> loans sessionAB = [])
  /\ (In InvalidPaymentAmount [InvalidPaymentAmount]
      <-> loans sessionAB <> [] /\ -5 <= 0)
  /\ (loans sessionAB = [] ->
      sessionAB = sessionAB /\ [InvalidPaymentAmount] = [NoLoansForRepayment])
  /\ (loans sessionAB <> [] -> -5 <= 0 ->
      sessionAB = sessionAB /\ [InvalidPaymentAmount] = [InvalidPaymentAmount]).
Proof.
  apply (allocatePayment_refusals 0 sessionAB sessionAB (-5) [InvalidPaymentAmount]).
  unfold allocatePayment. cbn [sessionAB addLoan newScheduler loans app].
  destruct (Rle_dec (-5) 0); [reflexivity | lra].
Defined.
